(** * The point-cloud Player of [src/data/pointcloud.js]

    A shallow embedding of the [Player] class (frame accumulation, timestamp
    normalisation, stepping and the play loop) together with the few
    operations of its collaborators that the class calls: the status
    callback, the renderer's scene, the asynchronous loader and [setTimeout].

    Conventions of the embedding.
    - A JavaScript number is an integer [Num z], or [NaN]; a slot that holds
      no value is [Undefined].  Integral doubles below 2^53 behave exactly
      like [Z]; fractional timestamps are outside the model.
    - Every method is a computation in the monad [M]: it reads and writes the
      fields of [this] and either completes normally or throws a [TypeError]
      (a property read on [undefined]).  Fields written before a throw stay
      written, as in JavaScript.
    - Calls to collaborators are recorded in the same state: the texts passed
      to the status callback, the point clouds in the renderer's scene, the
      scenes drawn by [render()], the load requests in flight and the timers
      that are pending. *)

From Stdlib Require Import ZArith Sorted Permutation.
From stdpp Require Import base list strings pretty sorting gmap.

Local Open Scope Z_scope.

(** ** JavaScript values *)

Inductive jsval :=
| Undefined
| NaN
| Num (z : Z).

Global Instance jsval_eq_dec : EqDecision jsval.
Proof. solve_decision. Defined.

(** [a - b] on numbers; [undefined] converts to [NaN]. *)
Definition js_sub (a b : jsval) : jsval :=
  match a, b with
  | Num x, Num y => Num (x - y)
  | _, _ => NaN
  end.

(** [a + b] on numbers (no string operand). *)
Definition js_add (a b : jsval) : jsval :=
  match a, b with
  | Num x, Num y => Num (x + y)
  | _, _ => NaN
  end.

(** [a * b]. *)
Definition js_mul (a b : jsval) : jsval :=
  match a, b with
  | Num x, Num y => Num (x * y)
  | _, _ => NaN
  end.

(** [a % b]: the remainder takes the sign of the dividend, and [x % 0] is
    [NaN]. *)
Definition js_rem (a b : jsval) : jsval :=
  match a, b with
  | Num x, Num y => if decide (y = 0) then NaN else Num (Z.rem x y)
  | _, _ => NaN
  end.

(** [a < b]: false as soon as one side converts to [NaN]. *)
Definition js_lt (a b : jsval) : bool :=
  match a, b with
  | Num x, Num y => bool_decide (x < y)
  | _, _ => false
  end.

(** [undefined == v]. *)
Definition js_is_undefined (v : jsval) : bool :=
  match v with
  | Undefined => true
  | _ => false
  end.

(** String conversion of a value inside a concatenation. *)
Definition js_to_string (v : jsval) : string :=
  match v with
  | Undefined => "undefined"
  | NaN => "NaN"
  | Num z => pretty z
  end.

(** A string-valued property that may be absent. *)
Definition js_string_or_undefined (s : option string) : string :=
  match s with
  | Some t => t
  | None => "undefined"
  end.

(** A loaded [THREE.Points] object, identified by its reference. *)
Definition Points := nat.

Definition POINT_CLOUD_NAME : string := "point_cloud".

(** ** Frames, load meta data and scene descriptions *)

(** The objects pushed on [this.frames].  [duration] is absent, hence
    [Undefined], until [normalizeTimeStamps] writes it. *)
Module Frame.
Record t := mk {
  timestamp : jsval;
  path : option string;
  scene : option string;
  points : Points;
  duration : jsval
}.

Definition set_timestamp (v : jsval) (f : t) : t :=
  mk v (path f) (scene f) (points f) (duration f).

Definition set_duration (v : jsval) (f : t) : t :=
  mk (timestamp f) (path f) (scene f) (points f) v.

(** What a frame carries besides its times. *)
Definition payload (f : t) : option string * option string * Points :=
  (path f, scene f, points f).
End Frame.

(** The [meta] object handed to the loader and back to [pointCloudLoaded].
    [loadSinglePointCloud] leaves [scene], [index], [timestamp] and [path]
    out. *)
Module Meta.
Record t := mk {
  event_identifier : nat;
  scene : option string;
  index : option nat;
  num_frames : nat;
  timestamp : jsval;
  path : option string
}.
End Meta.

(** One entry of a frame's [clouds]: an object read through ["path"]. *)
Module Cloud.
Record t := mk { path : option string }.
End Cloud.

(** The [clouds] member of a frame description comes from JSON: it is an
    array, or an object keyed by the type of the point cloud.  Only own
    properties are modelled. *)
Inductive Clouds :=
| CloudsArray (items : list Cloud.t)
| CloudsObject (entries : list (string * Cloud.t)).

Module FrameSpec.
Record t := mk {
  timestamp : jsval;
  clouds : Clouds
}.
End FrameSpec.

(** What [clouds.length] evaluates to. *)
Inductive length_value :=
| LengthNumber (n : nat)
| LengthObject
| LengthUndefined.

Fixpoint assoc {A : Type} (key : string) (entries : list (string * A)) : option A :=
  match entries with
  | [] => None
  | (k, v) :: rest => if decide (k = key) then Some v else assoc key rest
  end.

Definition clouds_length (c : Clouds) : length_value :=
  match c with
  | CloudsArray items => LengthNumber (length items)
  | CloudsObject entries =>
      match assoc "length" entries with
      | Some _ => LengthObject
      | None => LengthUndefined
      end
  end.

(** [0 == v] for the value of [clouds.length]: an object converts to [NaN]
    and [undefined] equals only [null] and itself. *)
Definition zero_loose_eq (v : length_value) : bool :=
  match v with
  | LengthNumber n => bool_decide (n = 0%nat)
  | LengthObject => false
  | LengthUndefined => false
  end.

(** The element of an array whose index prints as [key]. *)
Fixpoint array_get {A : Type} (key : string) (index : nat) (items : list A) : option A :=
  match items with
  | [] => None
  | x :: rest => if decide (pretty index = key) then Some x else array_get key (S index) rest
  end.

(** [clouds[type_identifier]]; [None] stands for [undefined].  The [length]
    of an array is a number, whose ["path"] is [undefined]. *)
Definition clouds_get (c : Clouds) (type_identifier : string) : option Cloud.t :=
  match c with
  | CloudsArray items =>
      if decide (type_identifier = "length") then Some (Cloud.mk None)
      else array_get type_identifier 0%nat items
  | CloudsObject entries => assoc type_identifier entries
  end.

(** ** The state *)

Record Player := mkPlayer {
  (* fields of the class *)
  event_identifier : nat;
  is_playing : bool;
  loaded : bool;
  frames : list Frame.t;
  current_frame : jsval;
  on_render_frame_callback : bool; (* is a callback configured? *)
  (* collaborators *)
  status_log : list string;        (* texts given to status_callback, oldest first *)
  scene : list Points;             (* point clouds in the renderer's scene *)
  rendered : list (list Points);   (* what each call of render() drew *)
  render_callbacks : list (jsval * jsval * option string * option string);
  requests : list (string * string * Meta.t); (* loads in flight *)
  timers : list jsval              (* pending timeouts, delay in ms *)
}.

Definition set_event_identifier v p :=
  mkPlayer v (is_playing p) (loaded p) (frames p) (current_frame p)
    (on_render_frame_callback p) (status_log p) (scene p) (rendered p)
    (render_callbacks p) (requests p) (timers p).
Definition set_is_playing v p :=
  mkPlayer (event_identifier p) v (loaded p) (frames p) (current_frame p)
    (on_render_frame_callback p) (status_log p) (scene p) (rendered p)
    (render_callbacks p) (requests p) (timers p).
Definition set_loaded v p :=
  mkPlayer (event_identifier p) (is_playing p) v (frames p) (current_frame p)
    (on_render_frame_callback p) (status_log p) (scene p) (rendered p)
    (render_callbacks p) (requests p) (timers p).
Definition set_frames v p :=
  mkPlayer (event_identifier p) (is_playing p) (loaded p) v (current_frame p)
    (on_render_frame_callback p) (status_log p) (scene p) (rendered p)
    (render_callbacks p) (requests p) (timers p).
Definition set_current_frame v p :=
  mkPlayer (event_identifier p) (is_playing p) (loaded p) (frames p) v
    (on_render_frame_callback p) (status_log p) (scene p) (rendered p)
    (render_callbacks p) (requests p) (timers p).
Definition set_status_log v p :=
  mkPlayer (event_identifier p) (is_playing p) (loaded p) (frames p) (current_frame p)
    (on_render_frame_callback p) v (scene p) (rendered p)
    (render_callbacks p) (requests p) (timers p).
Definition set_scene v p :=
  mkPlayer (event_identifier p) (is_playing p) (loaded p) (frames p) (current_frame p)
    (on_render_frame_callback p) (status_log p) v (rendered p)
    (render_callbacks p) (requests p) (timers p).
Definition set_rendered v p :=
  mkPlayer (event_identifier p) (is_playing p) (loaded p) (frames p) (current_frame p)
    (on_render_frame_callback p) (status_log p) (scene p) v
    (render_callbacks p) (requests p) (timers p).
Definition set_render_callbacks v p :=
  mkPlayer (event_identifier p) (is_playing p) (loaded p) (frames p) (current_frame p)
    (on_render_frame_callback p) (status_log p) (scene p) (rendered p)
    v (requests p) (timers p).
Definition set_requests v p :=
  mkPlayer (event_identifier p) (is_playing p) (loaded p) (frames p) (current_frame p)
    (on_render_frame_callback p) (status_log p) (scene p) (rendered p)
    (render_callbacks p) v (timers p).
Definition set_timers v p :=
  mkPlayer (event_identifier p) (is_playing p) (loaded p) (frames p) (current_frame p)
    (on_render_frame_callback p) (status_log p) (scene p) (rendered p)
    (render_callbacks p) (requests p) v.

(** ** The monad of methods *)

Inductive completion (A : Type) :=
| Normal (a : A)
| TypeError.
Arguments Normal {A} a.
Arguments TypeError {A}.

Definition M (A : Type) : Type := Player → completion A * Player.

Global Instance M_ret : MRet M := λ A a p, (Normal a, p).

Global Instance M_bind : MBind M := λ A B f m p,
  match m p with
  | (Normal a, p') => f a p'
  | (TypeError, p') => (TypeError, p')
  end.

Definition get : M Player := λ p, (Normal p, p).
Definition modify (f : Player → Player) : M unit := λ p, (Normal (), f p).
Definition throw {A : Type} : M A := λ p, (TypeError, p).

(** Reading a property of [v]: a [TypeError] when [v] is [undefined]. *)
Definition deref {A : Type} (v : option A) : M A :=
  match v with
  | Some a => mret a
  | None => throw
  end.

(** The state a call leaves behind, however it completes. *)
Definition after {A : Type} (m : M A) (p : Player) : Player := (m p).2.

(** [array[v]] for a list used as an array: an element only for an integer
    index in range, [undefined] otherwise. *)
Definition js_index {A : Type} (l : list A) (v : jsval) : option A :=
  match v with
  | Num z => if decide (0 ≤ z) then l !! Z.to_nat z else None
  | _ => None
  end.

Definition js_length {A : Type} (l : list A) : jsval := Num (Z.of_nat (length l)).

(** ** Sorting *)

(** Compare two objects with timestamps. *)
Definition compareByTimestamp (a b : Frame.t) : Z :=
  let ta := Frame.timestamp a in
  let tb := Frame.timestamp b in
  if js_lt ta tb then -1
  else if js_lt tb ta then 1
  else 0.

(** [Array.prototype.sort(cmp)].  The standard fixes the result for a
    consistent comparator: the stable arrangement in which [cmp] is never
    positive from left to right.  Insertion from the right computes it: an
    element moves past exactly those sorted successors that [cmp] puts
    before it, so equal elements keep their order. *)
Fixpoint sort_insert {A : Type} (cmp : A → A → Z) (x : A) (l : list A) : list A :=
  match l with
  | [] => [x]
  | y :: l' => if decide (0 < cmp x y) then y :: sort_insert cmp x l' else x :: l
  end.

Fixpoint array_sort {A : Type} (cmp : A → A → Z) (l : list A) : list A :=
  match l with
  | [] => []
  | x :: l' => sort_insert cmp x (array_sort cmp l')
  end.

(** ** Collaborators *)

(** [status_callback(text)]. *)
Definition status_callback (text : string) : M unit :=
  modify (λ p, set_status_log (status_log p ++ [text]) p).

(** Modelled from the spec: three.js's scene graph ([getObjectByName] and
    [remove]) is not part of the repository.
    [PointCloudRenderer.removePointCloud] is the adapter's detach, which
    removes the current visual: every object the Player adds carries the
    name [POINT_CLOUD_NAME], so the first of them goes, and an empty scene
    stays as it is. *)
Definition removePointCloud (name : string) : M unit :=
  modify (λ p, set_scene (tail (scene p)) p).

(** Modelled from the spec: three.js's [Scene.add] is not part of the
    repository.  [PointCloudRenderer.addToScene] is the adapter's attach,
    which shows the visual: the object is appended, and an object that is in
    the scene already is moved, not duplicated. *)
Definition addToScene (pts : Points) : M unit :=
  modify (λ p, set_scene (filter (λ q, q ≠ pts) (scene p) ++ [pts]) p).

(** [PointCloudRenderer.render]: the current scene is drawn. *)
Definition render : M unit :=
  modify (λ p, set_rendered (rendered p ++ [scene p]) p).

(** [PointCloudRenderer.loadPointCloud]: the request is handed to the
    loader; its callback, always [pointCloudLoaded], runs later, when the
    event loop delivers the result.  What the callback does to the geometry
    and the material of the points is left out (the stray [+] in front of
    [points.material.fog = false] is read as not being there). *)
Definition renderer_loadPointCloud (path name : string) (meta : Meta.t) : M unit :=
  modify (λ p, set_requests (requests p ++ [(path, name, meta)]) p).

(** [setTimeout(this.playNextFrameCallback.bind(this), ms)]. *)
Definition setTimeout (ms : jsval) : M unit :=
  modify (λ p, set_timers (timers p ++ [ms]) p).

(** [on_render_frame_callback(image, index, timestamp, path, scene)]; the
    image is left out. *)
Definition call_on_render_frame_callback
    (index timestamp : jsval) (path scene : option string) : M unit :=
  modify (λ p, set_render_callbacks
                 (render_callbacks p ++ [(index, timestamp, path, scene)]) p).

(** ** The methods of [Player] *)

(** [for(var index = start; index < start + count; ++index) body(index)],
    for loops whose bound the body leaves alone. *)
Fixpoint for_range (index count : nat) (body : nat → M unit) : M unit :=
  match count with
  | O => mret ()
  | S count' => body index;; for_range (S index) count' body
  end.

(** The state of a fresh [Player]. *)
Definition constructor (has_render_callback : bool) : Player :=
  {| event_identifier := 0;
     is_playing := false;
     loaded := false;
     frames := [];
     current_frame := Undefined;
     on_render_frame_callback := has_render_callback;
     status_log := [];
     scene := [];
     rendered := [];
     render_callbacks := [];
     requests := [];
     timers := [] |}.

Definition status (text : string) : M unit := status_callback text.

Definition pause : M unit := modify (set_is_playing false).

Definition reset : M unit :=
  pause;;
  modify (set_loaded false);;
  modify (set_current_frame Undefined);;
  modify (set_frames []);;
  modify (λ p, set_event_identifier (S (event_identifier p)) p);;
  removePointCloud POINT_CLOUD_NAME.

Definition loadPointCloud (full_path : string) (meta : Meta.t) : M unit :=
  renderer_loadPointCloud full_path POINT_CLOUD_NAME meta.

(** The body of the loop of [loadPointClouds], from [index] on; [rest] is
    what is left of [frames] and [num_frames] is [frames.length]. *)
Fixpoint loadPointClouds_loop (name : string) (num_frames : nat)
    (type_identifier : string) (index : nat) (rest : list FrameSpec.t) : M unit :=
  match rest with
  | [] => mret ()
  | frame :: rest' =>
      let timestamp := FrameSpec.timestamp frame in
      let clouds := FrameSpec.clouds frame in
      if zero_loose_eq (clouds_length clouds) then
        status "No clouds in frame."
      else
        cloud ← deref (clouds_get clouds type_identifier);
        let path := Cloud.path cloud in
        let full_path := "pointclouds/" +:+ js_string_or_undefined path in
        p ← get;
        let meta :=
          {| Meta.event_identifier := event_identifier p;
             Meta.scene := Some name;
             Meta.index := Some index;
             Meta.num_frames := num_frames;
             Meta.timestamp := timestamp;
             Meta.path := path |} in
        status "Loading point clouds...";;
        loadPointCloud full_path meta;;
        loadPointClouds_loop name num_frames type_identifier (S index) rest'
  end.

Definition loadPointClouds (name : string) (frames : list FrameSpec.t)
    (type_identifier : string) : M unit :=
  status "Loading point clouds.";;
  reset;;
  if bool_decide (0%nat = length frames) then
    status "No frames in scene."
  else
    loadPointClouds_loop name (length frames) type_identifier 0%nat frames.

Definition loadSinglePointCloud (full_path : string) : M unit :=
  reset;;
  p ← get;
  let meta :=
    {| Meta.event_identifier := event_identifier p;
       Meta.scene := None;
       Meta.index := None;
       Meta.num_frames := 1;
       Meta.timestamp := Undefined;
       Meta.path := None |} in
  loadPointCloud full_path meta.

Definition normalizeTimeStamps : M unit :=
  p ← get;
  if bool_decide (0%nat = length (frames p)) then mret ()
  else
    first_frame ← deref (frames p !! 0%nat);
    let offset := Frame.timestamp first_frame in
    for_range 0 (length (frames p)) (λ index,
      q ← get;
      f ← deref (frames q !! index);
      modify (set_frames
        (<[index := Frame.set_timestamp (js_sub (Frame.timestamp f) offset) f]> (frames q))));;
    for_range 0 (length (frames p) - 1) (λ index,
      q ← get;
      f ← deref (frames q !! index);
      let first := Frame.timestamp f in
      g ← deref (frames q !! (index + 1)%nat);
      let second := Frame.timestamp g in
      modify (set_frames
        (<[index := Frame.set_duration (js_sub second first) f]> (frames q))));;
    q ← get;
    f ← deref (frames q !! (length (frames q) - 1)%nat);
    modify (set_frames
      (<[(length (frames q) - 1)%nat := Frame.set_duration (Num 1) f]> (frames q))).

Definition normalizeFrames : M unit :=
  modify (λ p, set_frames (array_sort compareByTimestamp (frames p)) p);;
  normalizeTimeStamps.

Definition showCurrentFrame : M unit :=
  p ← get;
  let frame := js_index (frames p) (current_frame p) in
  status ("Frame " +:+ js_to_string (js_add (current_frame p) (Num 1))
          +:+ " of " +:+ pretty (length (frames p)) +:+ ".");;
  removePointCloud POINT_CLOUD_NAME;;
  f ← deref frame;
  addToScene (Frame.points f);;
  render;;
  if on_render_frame_callback p then
    call_on_render_frame_callback
      (current_frame p) (Frame.timestamp f) (Frame.path f) (Frame.scene f)
  else mret ().

Definition nextFrame : M unit :=
  p ← get;
  if js_is_undefined (current_frame p) || negb (loaded p) then mret ()
  else
    modify (set_current_frame
      (js_rem (js_add (current_frame p) (Num 1)) (js_length (frames p))));;
    showCurrentFrame.

Definition previousFrame : M unit :=
  p ← get;
  if js_is_undefined (current_frame p) || negb (loaded p) then mret ()
  else
    modify (set_current_frame
      (js_rem (js_sub (js_add (js_length (frames p)) (current_frame p)) (Num 1))
              (js_length (frames p))));;
    showCurrentFrame.

Definition pointCloudLoaded (points : Points) (meta : Meta.t) : M unit :=
  p ← get;
  if negb (bool_decide (event_identifier p = Meta.event_identifier meta)) then mret ()
  else
    modify (λ q, set_frames
      (frames q ++ [ {| Frame.timestamp := Meta.timestamp meta;
                        Frame.path := Meta.path meta;
                        Frame.scene := Meta.scene meta;
                        Frame.points := points;
                        Frame.duration := Undefined |} ]) q);;
    q ← get;
    status ("Loaded " +:+ pretty (length (frames q)) +:+ " frames of "
            +:+ pretty (Meta.num_frames meta) +:+ ".");;
    if bool_decide (length (frames q) = Meta.num_frames meta) then
      normalizeFrames;;
      status "Ready.";;
      modify (set_current_frame (Num (-1)));;
      modify (set_loaded true);;
      nextFrame
    else mret ().

Definition createNextFrameTimer : M unit :=
  p ← get;
  f ← deref (js_index (frames p) (current_frame p));
  let seconds := Frame.duration f in
  setTimeout (js_mul (Num 1000) seconds).

Definition play : M bool :=
  p ← get;
  if bool_decide (length (frames p) < 2)%nat then mret false
  else if negb (loaded p) then mret false
  else
    (if is_playing p then pause
     else modify (set_is_playing true);; createNextFrameTimer);;
    q ← get;
    mret (is_playing q).

Definition playNextFrameCallback : M unit :=
  p ← get;
  if negb (is_playing p) then mret ()
  else nextFrame;; createNextFrameTimer.

(** ** The event loop *)

(** What can happen to a Player: a command of the controlling layer, the
    loader delivering (or failing) the [k]-th request in flight, or the
    [k]-th pending timer firing.  An exception ends the handler that raised
    it and leaves the state as it was at the throw. *)
Inductive event :=
| EvLoadPointClouds (name : string) (frames : list FrameSpec.t) (type_identifier : string)
| EvLoadSinglePointCloud (full_path : string)
| EvReset
| EvPlay
| EvPause
| EvNextFrame
| EvPreviousFrame
| EvLoadResolved (k : nat) (points : Points)
| EvLoadFailed (k : nat)
| EvTimerFired (k : nat).

Definition step (ev : event) (p : Player) : Player :=
  match ev with
  | EvLoadPointClouds name fs ty => after (loadPointClouds name fs ty) p
  | EvLoadSinglePointCloud full_path => after (loadSinglePointCloud full_path) p
  | EvReset => after reset p
  | EvPlay => after play p
  | EvPause => after pause p
  | EvNextFrame => after nextFrame p
  | EvPreviousFrame => after previousFrame p
  | EvLoadResolved k points =>
      match requests p !! k with
      | Some (_, _, meta) =>
          after (pointCloudLoaded points meta) (set_requests (delete k (requests p)) p)
      | None => p
      end
  | EvLoadFailed k => set_requests (delete k (requests p)) p
  | EvTimerFired k =>
      match timers p !! k with
      | Some _ => after playNextFrameCallback (set_timers (delete k (timers p)) p)
      | None => p
      end
  end.

Definition run (evs : list event) (p : Player) : Player :=
  foldl (λ q ev, step ev q) p evs.

Definition reachable (p : Player) : Prop :=
  ∃ (cb : bool) (evs : list event), p = run evs (constructor cb).

(** Delivering a sequence of load results to [pointCloudLoaded]. *)
Definition deliver (results : list (Points * Meta.t)) (p : Player) : Player :=
  foldl (λ q r, after (pointCloudLoaded r.1 r.2) q) p results.

(** ** Pure descriptions of the normalisation *)

Definition is_number (v : jsval) : bool :=
  match v with
  | Num _ => true
  | _ => false
  end.

Definition numeric_timestamps (fs : list Frame.t) : bool :=
  forallb (λ f, is_number (Frame.timestamp f)) fs.

(** [a <= b] between values that are numbers. *)
Definition num_le (a b : jsval) : Prop :=
  match a, b with
  | Num x, Num y => x ≤ y
  | _, _ => False
  end.

(** A frame list is in ascending order of its timestamps. *)
Definition ascending (fs : list Frame.t) : Prop :=
  StronglySorted num_le (Frame.timestamp <$> fs).

Definition rebase (offset : jsval) (fs : list Frame.t) : list Frame.t :=
  (λ f, Frame.set_timestamp (js_sub (Frame.timestamp f) offset) f) <$> fs.

(** Durations of all frames but the last one. *)
Fixpoint gaps (fs : list Frame.t) : list Frame.t :=
  match fs with
  | f :: (g :: _) as rest =>
      Frame.set_duration (js_sub (Frame.timestamp g) (Frame.timestamp f)) f :: gaps rest
  | _ => fs
  end.

Fixpoint last_duration (v : jsval) (fs : list Frame.t) : list Frame.t :=
  match fs with
  | [] => []
  | [f] => [Frame.set_duration v f]
  | f :: rest => f :: last_duration v rest
  end.

Definition normalized (fs : list Frame.t) : list Frame.t :=
  match fs with
  | [] => []
  | first_frame :: _ =>
      last_duration (Num 1) (gaps (rebase (Frame.timestamp first_frame) fs))
  end.

(** The frame [pointCloudLoaded] stores for a load result. *)
Definition frame_of (r : Points * Meta.t) : Frame.t :=
  {| Frame.timestamp := Meta.timestamp r.2;
     Frame.path := Meta.path r.2;
     Frame.scene := Meta.scene r.2;
     Frame.points := r.1;
     Frame.duration := Undefined |}.

(** Does a load result carry the Player's current event identifier? *)
Definition current (p : Player) (r : Points * Meta.t) : bool :=
  bool_decide (event_identifier p = Meta.event_identifier r.2).

(** ** Every method as an operation on the state *)

Inductive method :=
| m_loadPointClouds (name : string) (frames : list FrameSpec.t) (type_identifier : string)
| m_loadPointCloud (full_path : string) (meta : Meta.t)
| m_loadSinglePointCloud (full_path : string)
| m_reset
| m_pointCloudLoaded (points : Points) (meta : Meta.t)
| m_normalizeFrames
| m_normalizeTimeStamps
| m_status (text : string)
| m_nextFrame
| m_previousFrame
| m_showCurrentFrame
| m_play
| m_pause
| m_createNextFrameTimer
| m_playNextFrameCallback.

Definition call (m : method) (p : Player) : Player :=
  match m with
  | m_loadPointClouds name fs ty => after (loadPointClouds name fs ty) p
  | m_loadPointCloud full_path meta => after (loadPointCloud full_path meta) p
  | m_loadSinglePointCloud full_path => after (loadSinglePointCloud full_path) p
  | m_reset => after reset p
  | m_pointCloudLoaded points meta => after (pointCloudLoaded points meta) p
  | m_normalizeFrames => after normalizeFrames p
  | m_normalizeTimeStamps => after normalizeTimeStamps p
  | m_status text => after (status text) p
  | m_nextFrame => after nextFrame p
  | m_previousFrame => after previousFrame p
  | m_showCurrentFrame => after showCurrentFrame p
  | m_play => after play p
  | m_pause => after pause p
  | m_createNextFrameTimer => after createNextFrameTimer p
  | m_playNextFrameCallback => after playNextFrameCallback p
  end.

(** ** State invariants *)

(** The current frame is an index into [frames]. *)
Definition index_in_range (p : Player) : Prop :=
  match current_frame p with
  | Num i => 0 ≤ i < Z.of_nat (length (frames p))
  | _ => False
  end.

(** The invariants of the Player state: a current frame is defined only
    when the scene is loaded, it is then an index into [frames], and the
    Player plays only a loaded scene of at least two frames. *)
Definition inv (p : Player) : Prop :=
  (current_frame p ≠ Undefined → loaded p = true) ∧
  (current_frame p ≠ Undefined → index_in_range p) ∧
  (is_playing p = true → loaded p = true ∧ (2 ≤ length (frames p))%nat).

(** What holds in addition in the states the event loop reaches: a loaded
    Player has a current frame, and the scene shows at most one point
    cloud. *)
Definition ready (p : Player) : Prop :=
  inv p ∧
  (loaded p = true → current_frame p ≠ Undefined) ∧
  (length (scene p) ≤ 1)%nat.

(** Two states agree on the fields of the class. *)
Definition same_core (p q : Player) : Prop :=
  event_identifier q = event_identifier p ∧
  is_playing q = is_playing p ∧
  loaded q = loaded p ∧
  frames q = frames p ∧
  current_frame q = current_frame p ∧
  on_render_frame_callback q = on_render_frame_callback p.

(** The state [showCurrentFrame] leaves when [frames[current_frame]] is
    the frame [f]. *)
Definition shown (f : Frame.t) (p : Player) : Player :=
  let text := "Frame " +:+ js_to_string (js_add (current_frame p) (Num 1))
              +:+ " of " +:+ pretty (length (frames p)) +:+ "." in
  let drawn := filter (λ q, q ≠ Frame.points f) (tail (scene p)) ++ [Frame.points f] in
  {| event_identifier := event_identifier p;
     is_playing := is_playing p;
     loaded := loaded p;
     frames := frames p;
     current_frame := current_frame p;
     on_render_frame_callback := on_render_frame_callback p;
     status_log := status_log p ++ [text];
     scene := drawn;
     rendered := rendered p ++ [drawn];
     render_callbacks :=
       if on_render_frame_callback p then
         render_callbacks p ++
           [(current_frame p, Frame.timestamp f, Frame.path f, Frame.scene f)]
       else render_callbacks p;
     requests := requests p;
     timers := timers p |}.

(** The state [reset] leaves. *)
Definition cleared (p : Player) : Player :=
  {| event_identifier := S (event_identifier p);
     is_playing := false;
     loaded := false;
     frames := [];
     current_frame := Undefined;
     on_render_frame_callback := on_render_frame_callback p;
     status_log := status_log p;
     scene := tail (scene p);
     rendered := rendered p;
     render_callbacks := render_callbacks p;
     requests := requests p;
     timers := timers p |}.

(** The state [pointCloudLoaded] leaves after it stored a frame and
    reported the progress. *)
Definition stored (r : Points * Meta.t) (p : Player) : Player :=
  let fs := frames p ++ [frame_of r] in
  set_status_log
    (status_log p ++ ["Loaded " +:+ pretty (length fs) +:+ " frames of "
                      +:+ pretty (Meta.num_frames r.2) +:+ "."])
    (set_frames fs p).

(** The state in which [pointCloudLoaded] calls [nextFrame] once the last
    frame has arrived. *)
Definition completed (r : Points * Meta.t) (p : Player) : Player :=
  let q := stored r p in
  set_loaded true
    (set_current_frame (Num (-1))
      (set_status_log (status_log q ++ ["Ready."])
        (set_frames (normalized (array_sort compareByTimestamp (frames q))) q))).

(** The request [loadSinglePointCloud] hands to the loader. *)
Definition single_meta (p : Player) : Meta.t :=
  {| Meta.event_identifier := S (event_identifier p);
     Meta.scene := None;
     Meta.index := None;
     Meta.num_frames := 1;
     Meta.timestamp := Undefined;
     Meta.path := None |}.

(** The requests [loadPointClouds] issues for the frames from [index] on,
    when every frame has a cloud of the selected type. *)
Fixpoint scene_requests (name : string) (num_frames : nat) (type_identifier : string)
    (event_id : nat) (index : nat) (specs : list FrameSpec.t) : list (string * string * Meta.t) :=
  match specs with
  | [] => []
  | frame :: rest =>
      match clouds_get (FrameSpec.clouds frame) type_identifier with
      | Some cloud =>
          ("pointclouds/" +:+ js_string_or_undefined (Cloud.path cloud),
           POINT_CLOUD_NAME,
           {| Meta.event_identifier := event_id;
              Meta.scene := Some name;
              Meta.index := Some index;
              Meta.num_frames := num_frames;
              Meta.timestamp := FrameSpec.timestamp frame;
              Meta.path := Cloud.path cloud |})
          :: scene_requests name num_frames type_identifier event_id (S index) rest
      | None => []
      end
  end.

(** A frame description the loop of [loadPointClouds] passes: the zero
    test on [clouds.length] fails and the selected type is present. *)
Definition has_cloud (type_identifier : string) (frame : FrameSpec.t) : bool :=
  negb (zero_loose_eq (clouds_length (FrameSpec.clouds frame))) &&
  bool_decide (is_Some (clouds_get (FrameSpec.clouds frame) type_identifier)).

(** The state after the loop of [loadPointClouds] has passed the frames
    [specs], each with a cloud of the selected type, starting at [index]. *)
Definition issued (name : string) (num_frames : nat) (type_identifier : string)
    (index : nat) (specs : list FrameSpec.t) (p : Player) : Player :=
  set_requests
    (requests p ++
       scene_requests name num_frames type_identifier (event_identifier p) index specs)
    (set_status_log
       (status_log p ++ replicate (length specs) "Loading point clouds...") p).

(** The state after [pointCloudLoaded] has stored each of [results] and the
    scene is not complete yet. *)
Definition stored_all (results : list (Points * Meta.t)) (p : Player) : Player :=
  foldl (λ q r, stored r q) p results.

(** ** A small scene for the examples *)

(** Two frames, given out of order, with clouds keyed by type. *)
Definition demo_scene : list FrameSpec.t :=
  [ {| FrameSpec.timestamp := Num 7;
       FrameSpec.clouds := CloudsObject [("color", Cloud.mk (Some "b.pcd"))] |};
    {| FrameSpec.timestamp := Num 5;
       FrameSpec.clouds := CloudsObject [("color", Cloud.mk (Some "a.pcd"))] |} ].

(** The scene is requested and both loads are delivered. *)
Definition demo_loading : list event :=
  [ EvLoadPointClouds "s" demo_scene "color"; EvLoadResolved 0 10%nat; EvLoadResolved 0 11%nat ].

Definition demo_ready : Player :=
  Eval vm_compute in run demo_loading (constructor false).

(** A Player holding three frames with the timestamps 5, 3 and 9, before
    normalisation. *)
Definition demo_unsorted : Player :=
  set_frames
    [ Frame.mk (Num 5) (Some "a.pcd") (Some "s") 1%nat Undefined;
      Frame.mk (Num 3) (Some "b.pcd") (Some "s") 2%nat Undefined;
      Frame.mk (Num 9) (Some "c.pcd") (Some "s") 3%nat Undefined ]
    (constructor false).

(** The Player after the scene has been requested. *)
Definition demo_requested : Player :=
  Eval vm_compute in step (EvLoadPointClouds "s" demo_scene "color") (constructor false).

(** Results for the requests of [demo_requested], the second one first,
    with a result of an older session in between. *)
Definition demo_results : list (Points * Meta.t) :=
  [ (11%nat, {| Meta.event_identifier := 1; Meta.scene := Some "s"; Meta.index := Some 1%nat;
                Meta.num_frames := 2; Meta.timestamp := Num 5; Meta.path := Some "a.pcd" |});
    (99%nat, {| Meta.event_identifier := 0; Meta.scene := Some "r"; Meta.index := Some 0%nat;
                Meta.num_frames := 1; Meta.timestamp := Num 1; Meta.path := Some "z.pcd" |});
    (10%nat, {| Meta.event_identifier := 1; Meta.scene := Some "s"; Meta.index := Some 0%nat;
                Meta.num_frames := 2; Meta.timestamp := Num 7; Meta.path := Some "b.pcd" |}) ].

(** The loaded Player after play, pause and play again: it is playing and
    two timers are pending. *)
Definition demo_double : Player :=
  Eval vm_compute in run [EvPlay; EvPause; EvPlay] demo_ready.

(** ** Descriptions used by the further properties *)



(** The requests of the current session that are in flight. *)
Definition pending (p : Player) : list (string * string * Meta.t) :=
  filter (λ q, Meta.event_identifier q.2 = event_identifier p) (requests p).

(** The status text [showCurrentFrame] reports in the state [p]. *)
Definition frame_text (p : Player) : string :=
  "Frame " +:+ js_to_string (js_add (current_frame p) (Num 1))
  +:+ " of " +:+ pretty (length (frames p)) +:+ ".".

(** No request in flight is newer than the Player's session. *)
Definition ids_bounded (p : Player) : Prop :=
  Forall (λ q, (Meta.event_identifier q.2 ≤ event_identifier p)%nat) (requests p).

(** The requests of the current session agree on the number of frames
    [n] of the scene, they and the frames stored do not exceed it, and a
    loaded scene has exactly [n] frames. *)
Definition session_bounded (p : Player) : Prop :=
  ∃ n : nat,
    Forall (λ q, Meta.num_frames q.2 = n) (pending p) ∧
    (length (frames p) + length (pending p) ≤ n)%nat ∧
    (loaded p = true → length (frames p) = n).

(** The frames of a loaded scene are the result of a normalisation. *)
Definition loaded_normalized (p : Player) : Prop :=
  loaded p = true →
  ∃ l, l ≠ [] ∧ frames p = normalized (array_sort compareByTimestamp l).

(** What is on display: the current frame of a loaded scene, which is also
    what was drawn and reported last, and nothing when no scene is loaded. *)
Definition displayed (p : Player) : Prop :=
  (loaded p = true →
     ∃ f, js_index (frames p) (current_frame p) = Some f ∧
          scene p = [Frame.points f] ∧
          last (rendered p) = Some [Frame.points f] ∧
          last (status_log p) = Some (frame_text p) ∧
          (on_render_frame_callback p = true →
             last (render_callbacks p)
               = Some (current_frame p, Frame.timestamp f, Frame.path f, Frame.scene f))) ∧
  (loaded p = false → scene p = []).

(** The render callback has run once for every frame drawn, or never when
    none is configured. *)
Definition callbacks_counted (p : Player) : Prop :=
  if on_render_frame_callback p
  then length (render_callbacks p) = length (rendered p)
  else render_callbacks p = [].

Definition settled (p : Player) : Prop :=
  ids_bounded p ∧ session_bounded p ∧ loaded_normalized p ∧ displayed p ∧
  callbacks_counted p.

(** Two states agree on everything but [is_playing] and the timers. *)
Definition same_view (p q : Player) : Prop :=
  event_identifier q = event_identifier p ∧
  loaded q = loaded p ∧
  frames q = frames p ∧
  current_frame q = current_frame p ∧
  on_render_frame_callback q = on_render_frame_callback p ∧
  status_log q = status_log p ∧
  scene q = scene p ∧
  rendered q = rendered p ∧
  render_callbacks q = render_callbacks p ∧
  requests q = requests p.

(** The events that start a new session. *)
Definition new_session (ev : event) : bool :=
  match ev with
  | EvLoadPointClouds _ _ _ | EvLoadSinglePointCloud _ | EvReset => true
  | _ => false
  end.

(** A session that cannot complete any more: the scene is not loaded, and
    fewer frames are stored or still expected than the scene has. *)
Definition starved (p : Player) : Prop :=
  loaded p = false ∧
  ∃ n : nat,
    Forall (λ q, Meta.num_frames q.2 = n) (pending p) ∧
    (length (frames p) + length (pending p) < n)%nat.

(** The progress text of [pointCloudLoaded]. *)
Definition progress_text (k n : nat) : string :=
  "Loaded " +:+ pretty k +:+ " frames of " +:+ pretty n +:+ ".".

(** * The Controller of the page *)

(** What [code.js] builds around the Player: the handlers of the buttons
    and of the type menu.  The texts of the page are kept as strings; what
    the browser does to build the menus is left out. *)

(** One entry of the scene configurations: the ["name"] and the ["frames"]
    of a scene. *)
Module SceneConfig.
Record t := mk {
  name : string;
  frames : list FrameSpec.t
}.
End SceneConfig.

Record Controller := mkController {
  player : Player;
  scene_configurations : gmap string SceneConfig.t;
  select_scene_element : string;   (* its value *)
  select_type_element : string;    (* its value *)
  play_pause_button : string       (* its innerHTML *)
}.

Definition set_player v c :=
  mkController v (scene_configurations c) (select_scene_element c)
    (select_type_element c) (play_pause_button c).
Definition set_play_pause_button v c :=
  mkController (player c) (scene_configurations c) (select_scene_element c)
    (select_type_element c) v.
Definition set_selection scene_value type_value c :=
  mkController (player c) (scene_configurations c) scene_value type_value
    (play_pause_button c).

(** [status_element.innerHTML]: [updateStatus] is the Player's status
    callback, so the element shows the last status text. *)
Definition status_element (c : Controller) : option string :=
  last (status_log (player c)).

(** The handlers run in the same way as the methods of the Player, over
    the state of the Controller. *)
Definition CM (A : Type) : Type := Controller → completion A * Controller.

Global Instance CM_ret : MRet CM := λ A a c, (Normal a, c).

Global Instance CM_bind : MBind CM := λ A B f m c,
  match m c with
  | (Normal a, c') => f a c'
  | (TypeError, c') => (TypeError, c')
  end.

(** A call of a method of [this.player]. *)
Definition on_player {A : Type} (m : M A) : CM A :=
  λ c, ((m (player c)).1, set_player (m (player c)).2 c).

Definition updatePlayPauseButton : CM unit :=
  λ c, (Normal (),
        set_play_pause_button (if is_playing (player c) then "PAUSE" else "PLAY") c).

Definition playFrames : CM unit :=
  on_player play;;
  updatePlayPauseButton.

Definition pausePlayer : CM unit :=
  on_player pause;;
  updatePlayPauseButton.

Definition jumpToNextFrame : CM unit :=
  pausePlayer;;
  on_player nextFrame.

Definition jumpToPreviousFrame : CM unit :=
  pausePlayer;;
  on_player previousFrame.

(** [onSelectType]: [scene["frames"]] throws when the selected scene is not
    among the configurations. *)
Definition onSelectType : CM unit :=
  on_player reset;;
  c ← (λ c, (Normal c, c));
  match scene_configurations c !! select_scene_element c with
  | Some scene =>
      on_player (loadPointClouds (SceneConfig.name scene) (SceneConfig.frames scene)
                   (select_type_element c));;
      updatePlayPauseButton
  | None => λ c, (TypeError, c)
  end.



(** What can happen to the Controller once its listeners are set up: the
    selection of the menus changes, one of its handlers is called, or the
    event loop delivers a load result or a timer to the Player. *)
Inductive cevent :=
| CvSelection (scene_value type_value : string)
| CvSelectType
| CvPlayPause
| CvNextFrame
| CvPreviousFrame
| CvLoadResolved (k : nat) (points : Points)
| CvLoadFailed (k : nat)
| CvTimerFired (k : nat).

Definition cstep (ev : cevent) (c : Controller) : Controller :=
  match ev with
  | CvSelection scene_value type_value => set_selection scene_value type_value c
  | CvSelectType => (onSelectType c).2
  | CvPlayPause => (playFrames c).2
  | CvNextFrame => (jumpToNextFrame c).2
  | CvPreviousFrame => (jumpToPreviousFrame c).2
  | CvLoadResolved k points => set_player (step (EvLoadResolved k points) (player c)) c
  | CvLoadFailed k => set_player (step (EvLoadFailed k) (player c)) c
  | CvTimerFired k => set_player (step (EvTimerFired k) (player c)) c
  end.

Definition crun (evs : list cevent) (c : Controller) : Controller :=
  foldl (λ d ev, cstep ev d) c evs.

(** The events of the Player behind an event of the Controller. *)
Definition player_events (ev : cevent) (c : Controller) : list event :=
  match ev with
  | CvSelection _ _ => []
  | CvSelectType =>
      EvReset ::
      match scene_configurations c !! select_scene_element c with
      | Some scene =>
          [EvLoadPointClouds (SceneConfig.name scene) (SceneConfig.frames scene)
             (select_type_element c)]
      | None => []
      end
  | CvPlayPause => [EvPlay]
  | CvNextFrame => [EvPause; EvNextFrame]
  | CvPreviousFrame => [EvPause; EvPreviousFrame]
  | CvLoadResolved k points => [EvLoadResolved k points]
  | CvLoadFailed k => [EvLoadFailed k]
  | CvTimerFired k => [EvTimerFired k]
  end.

(** The text the button shows when it agrees with the Player. *)
Definition button_text (p : Player) : string :=
  if is_playing p then "PAUSE" else "PLAY".



(** A Controller with a scene of two frames, after the scene was selected
    and loaded and the play button was clicked. *)
Definition demo_controller : Controller :=
  Eval vm_compute in
    crun [CvSelectType; CvLoadResolved 0 10%nat; CvLoadResolved 0 11%nat; CvPlayPause]
      (mkController (constructor false) {[ "s" := SceneConfig.mk "s" demo_scene ]}
         "s" "color" "PLAY").

(** * Proofs *)

(** ** The monad *)

Lemma bind_normal {A B : Type} (m : M A) (f : A → M B) p a p' :
  m p = (Normal a, p') → (m ≫= f) p = f a p'.
Proof. intros H. unfold mbind, M_bind. by rewrite H. Qed.


Lemma set_frames_id p : set_frames (frames p) p = p.
Proof. by destruct p. Qed.

Lemma set_frames_twice a b p : set_frames a (set_frames b p) = set_frames a p.
Proof. done. Qed.

(** ** The loops of [normalizeTimeStamps] *)

Lemma rebase_loop offset c : ∀ pre rest p,
  frames p = pre ++ rest → length rest = c →
  for_range (length pre) c (λ index,
      q ← get;
      f ← deref (frames q !! index);
      modify (set_frames
        (<[index := Frame.set_timestamp (js_sub (Frame.timestamp f) offset) f]> (frames q)))) p
  = (Normal (), set_frames (pre ++ rebase offset rest) p).
Proof.
  induction c as [|c IH]; intros pre rest p Hfs Hlen.
  - destruct rest; [|done]. simpl. by rewrite <- Hfs, set_frames_id.
  - destruct rest as [|f rest]; [done|]. injection Hlen as Hlen.
    cbn [for_range].
    erewrite bind_normal; cycle 1.
    { unfold get, mbind, M_bind. rewrite Hfs, list_lookup_middle by done. simpl.
      unfold modify. reflexivity. }
    rewrite insert_app_r_alt, Nat.sub_diag by done. cbn [insert list_insert].
    set (f' := Frame.set_timestamp _ f).
    replace (S (length pre)) with (length (pre ++ [f'])) by (rewrite length_app; simpl; lia).
    rewrite (IH (pre ++ [f']) rest); [| by simpl; rewrite <- app_assoc | done].
    rewrite set_frames_twice, <- app_assoc. done.
Qed.

Lemma gaps_loop c : ∀ pre rest p,
  frames p = pre ++ rest → length rest = S c →
  for_range (length pre) c (λ index,
      q ← get;
      f ← deref (frames q !! index);
      let first := Frame.timestamp f in
      g ← deref (frames q !! (index + 1)%nat);
      let second := Frame.timestamp g in
      modify (set_frames
        (<[index := Frame.set_duration (js_sub second first) f]> (frames q)))) p
  = (Normal (), set_frames (pre ++ gaps rest) p).
Proof.
  induction c as [|c IH]; intros pre rest p Hfs Hlen.
  - destruct rest as [|f [|g rest]]; try done. simpl. by rewrite <- Hfs, set_frames_id.
  - destruct rest as [|f [|g rest]]; try done. injection Hlen as Hlen.
    cbn [for_range].
    erewrite bind_normal; cycle 1.
    { unfold get, mbind, M_bind. rewrite Hfs, list_lookup_middle by done. simpl.
      rewrite lookup_app_r by lia.
      replace (length pre + 1 - length pre)%nat with 1%nat by lia. simpl.
      unfold modify. reflexivity. }
    rewrite insert_app_r_alt, Nat.sub_diag by done. cbn [insert list_insert].
    set (f' := Frame.set_duration _ f).
    replace (S (length pre)) with (length (pre ++ [f'])) by (rewrite length_app; simpl; lia).
    rewrite (IH (pre ++ [f']) (g :: rest)); [| by simpl; rewrite <- app_assoc | by simpl; rewrite Hlen].
    rewrite set_frames_twice, <- app_assoc. done.
Qed.

Lemma length_rebase offset fs : length (rebase offset fs) = length fs.
Proof. unfold rebase. by rewrite length_fmap. Qed.

Lemma length_gaps fs : length (gaps fs) = length fs.
Proof.
  induction fs as [|f [|g fs] IH]; try done. simpl in *. by rewrite IH.
Qed.

Lemma length_last_duration v fs : length (last_duration v fs) = length fs.
Proof.
  induction fs as [|f [|g fs] IH]; try done. simpl in *. by rewrite IH.
Qed.

Lemma last_duration_insert v fs f :
  fs !! (length fs - 1)%nat = Some f →
  <[(length fs - 1)%nat := Frame.set_duration v f]> fs = last_duration v fs.
Proof.
  induction fs as [|a [|b fs] IH]; intros Hf; try done.
  - simpl in *. by injection Hf as ->.
  - simpl in Hf, IH |- *. rewrite Nat.sub_0_r in IH. f_equal. by apply IH.
Qed.

Lemma normalizeTimeStamps_eq p :
  normalizeTimeStamps p = (Normal (), set_frames (normalized (frames p)) p).
Proof.
  unfold normalizeTimeStamps.
  unfold mbind at 1. unfold M_bind at 1. unfold get at 1.
  destruct (frames p) as [|f0 fs] eqn:Hfs.
  - simpl. by rewrite <- Hfs, set_frames_id.
  - rewrite bool_decide_eq_false_2 by done.
    erewrite bind_normal by reflexivity.
    erewrite bind_normal by (apply (rebase_loop _ _ [] (f0 :: fs) p Hfs eq_refl)).
    replace (length (f0 :: fs) - 1)%nat with (length fs) by (simpl; lia).
    set (fs1 := rebase (Frame.timestamp f0) (f0 :: fs)).
    assert (Hlen1 : length fs1 = S (length fs)) by (unfold fs1; by rewrite length_rebase).
    erewrite bind_normal by (apply (gaps_loop _ [] fs1); [done | exact Hlen1]).
    rewrite set_frames_twice. change ([] ++ gaps fs1) with (gaps fs1).
    unfold mbind at 1. unfold M_bind at 1. unfold get at 1.
    cbn [frames set_frames].
    assert (Hlen2 : length (gaps fs1) = S (length fs)) by (by rewrite length_gaps).
    destruct (lookup_lt_is_Some_2 (gaps fs1) (length (gaps fs1) - 1)%nat) as [f Hf]; [lia|].
    erewrite bind_normal by (rewrite Hf; reflexivity).
    unfold modify. rewrite set_frames_twice.
    by rewrite (last_duration_insert _ _ _ Hf).
Qed.

Lemma length_sort_insert {A : Type} (cmp : A → A → Z) x l :
  length (sort_insert cmp x l) = S (length l).
Proof.
  induction l as [|y l IH]; simpl; [done|]. case_decide; simpl; by rewrite ?IH.
Qed.

Lemma length_array_sort {A : Type} (cmp : A → A → Z) l :
  length (array_sort cmp l) = length l.
Proof.
  induction l as [|x l IH]; simpl; [done|]. by rewrite length_sort_insert, IH.
Qed.

Lemma sort_insert_perm {A : Type} (cmp : A → A → Z) x l :
  sort_insert cmp x l ≡ₚ x :: l.
Proof.
  induction l as [|y l IH]; simpl; [done|].
  case_decide; [|done]. by rewrite IH, Permutation_swap.
Qed.

Lemma array_sort_perm {A : Type} (cmp : A → A → Z) l :
  array_sort cmp l ≡ₚ l.
Proof.
  induction l as [|x l IH]; simpl; [done|]. by rewrite sort_insert_perm, IH.
Qed.

Lemma normalizeFrames_eq p :
  normalizeFrames p =
  (Normal (), set_frames (normalized (array_sort compareByTimestamp (frames p))) p).
Proof.
  unfold normalizeFrames.
  erewrite bind_normal by reflexivity.
  by rewrite normalizeTimeStamps_eq.
Qed.

(** ** Sorting by timestamp *)

Lemma numeric_timestamps_Forall fs :
  numeric_timestamps fs = true ↔ Forall (λ f, ∃ z, Frame.timestamp f = Num z) fs.
Proof.
  unfold numeric_timestamps. rewrite forallb_forall, Forall_forall.
  split; intros H f Hf.
  - apply list_elem_of_In, H in Hf. destruct (Frame.timestamp f); try done. by eexists.
  - apply list_elem_of_In, H in Hf. by destruct Hf as [z ->].
Qed.

Global Instance num_le_trans : Transitive num_le.
Proof. intros [| |x] [| |y] [| |z]; simpl; try done. lia. Qed.

Lemma compare_not_positive a b x y :
  Frame.timestamp a = Num x → Frame.timestamp b = Num y →
  ¬ 0 < compareByTimestamp a b → x ≤ y.
Proof.
  unfold compareByTimestamp. intros -> ->. simpl.
  repeat case_bool_decide; lia.
Qed.

Lemma compare_positive a b x y :
  Frame.timestamp a = Num x → Frame.timestamp b = Num y →
  0 < compareByTimestamp a b → y ≤ x.
Proof.
  unfold compareByTimestamp. intros -> ->. simpl.
  repeat case_bool_decide; lia.
Qed.

Lemma sort_insert_HdRel t x l :
  num_le t (Frame.timestamp x) →
  HdRel num_le t (Frame.timestamp <$> l) →
  HdRel num_le t (Frame.timestamp <$> sort_insert compareByTimestamp x l).
Proof.
  intros Hx Hl. destruct l as [|y l]; simpl; [by constructor|].
  case_decide; simpl; constructor; [|done]. by inversion Hl.
Qed.

Lemma sort_insert_Sorted x l :
  (∃ z, Frame.timestamp x = Num z) →
  Forall (λ f, ∃ z, Frame.timestamp f = Num z) l →
  Sorted num_le (Frame.timestamp <$> l) →
  Sorted num_le (Frame.timestamp <$> sort_insert compareByTimestamp x l).
Proof.
  intros [z Hz] Hnum. induction Hnum as [|y l [w Hw] Hnum IH]; intros Hs; simpl.
  - by repeat constructor.
  - simpl in Hs. apply Sorted_inv in Hs as [Hs Hhd].
    case_decide as Hc; simpl.
    + constructor; [by apply IH|].
      apply sort_insert_HdRel; [|done].
      rewrite Hz, Hw. simpl. by eapply compare_positive.
    + constructor; [by constructor|].
      constructor. rewrite Hz, Hw. simpl. by eapply compare_not_positive.
Qed.

Lemma array_sort_Sorted fs :
  Forall (λ f, ∃ z, Frame.timestamp f = Num z) fs →
  Sorted num_le (Frame.timestamp <$> array_sort compareByTimestamp fs).
Proof.
  induction 1 as [|x l Hx Hl IH]; simpl; [constructor|].
  apply sort_insert_Sorted; [done| |done].
  by rewrite array_sort_perm.
Qed.

Lemma array_sort_ascending fs :
  numeric_timestamps fs = true → ascending (array_sort compareByTimestamp fs).
Proof.
  intros H%numeric_timestamps_Forall.
  by apply Sorted_StronglySorted; [apply _ | apply array_sort_Sorted].
Qed.

(** ** Rebasing and durations *)

Lemma timestamps_gaps fs : Frame.timestamp <$> gaps fs = Frame.timestamp <$> fs.
Proof.
  induction fs as [|f [|g fs] IH]; try done.
  change (gaps (f :: g :: fs)) with
    (Frame.set_duration (js_sub (Frame.timestamp g) (Frame.timestamp f)) f :: gaps (g :: fs)).
  rewrite !fmap_cons, IH. done.
Qed.

Lemma timestamps_last_duration v fs :
  Frame.timestamp <$> last_duration v fs = Frame.timestamp <$> fs.
Proof.
  induction fs as [|f [|g fs] IH]; try done.
  change (last_duration v (f :: g :: fs)) with (f :: last_duration v (g :: fs)).
  rewrite !fmap_cons, IH. done.
Qed.

Lemma points_gaps fs : Frame.points <$> gaps fs = Frame.points <$> fs.
Proof.
  induction fs as [|f [|g fs] IH]; try done.
  change (gaps (f :: g :: fs)) with
    (Frame.set_duration (js_sub (Frame.timestamp g) (Frame.timestamp f)) f :: gaps (g :: fs)).
  rewrite !fmap_cons, IH. done.
Qed.

Lemma points_last_duration v fs :
  Frame.points <$> last_duration v fs = Frame.points <$> fs.
Proof.
  induction fs as [|f [|g fs] IH]; try done.
  change (last_duration v (f :: g :: fs)) with (f :: last_duration v (g :: fs)).
  rewrite !fmap_cons, IH. done.
Qed.

Lemma points_rebase offset fs : Frame.points <$> rebase offset fs = Frame.points <$> fs.
Proof. unfold rebase. rewrite <- list_fmap_compose. by apply list_fmap_ext. Qed.

Lemma timestamps_rebase offset fs :
  Frame.timestamp <$> rebase offset fs = (λ t, js_sub t offset) <$> (Frame.timestamp <$> fs).
Proof. unfold rebase. rewrite <- !list_fmap_compose. by apply list_fmap_ext. Qed.

Lemma timestamps_normalized f0 fs :
  Frame.timestamp <$> normalized (f0 :: fs) =
  (λ t, js_sub t (Frame.timestamp f0)) <$> (Frame.timestamp <$> (f0 :: fs)).
Proof.
  unfold normalized. by rewrite timestamps_last_duration, timestamps_gaps, timestamps_rebase.
Qed.

Lemma points_normalized fs : Frame.points <$> normalized fs = Frame.points <$> fs.
Proof.
  destruct fs as [|f0 fs]; [done|]. unfold normalized.
  by rewrite points_last_duration, points_gaps, points_rebase.
Qed.

Lemma length_normalized fs : length (normalized fs) = length fs.
Proof.
  destruct fs as [|f0 fs]; [done|]. unfold normalized.
  by rewrite length_last_duration, length_gaps, length_rebase.
Qed.

Lemma ascending_normalized fs :
  numeric_timestamps fs = true → ascending fs → ascending (normalized fs).
Proof.
  destruct fs as [|f0 fs]; [done|]. unfold ascending.
  rewrite timestamps_normalized. intros Hnum Hs.
  apply numeric_timestamps_Forall, Forall_cons_1 in Hnum as [[z ->] _].
  eapply StronglySorted_fmap; [|exact Hs].
  intros [| |x] [| |y]; simpl; try done. lia.
Qed.

Lemma head_normalized f0 fs z :
  Frame.timestamp f0 = Num z →
  ∃ f, normalized (f0 :: fs) !! 0%nat = Some f ∧ Frame.timestamp f = Num 0.
Proof.
  intros Hz.
  pose proof (timestamps_normalized f0 fs) as Hts.
  destruct (normalized (f0 :: fs)) as [|f l] eqn:E.
  - apply (f_equal length) in E. by rewrite length_normalized in E.
  - exists f. split; [done|]. simpl in Hts. injection Hts as -> _.
    rewrite Hz. simpl. f_equal. lia.
Qed.

Lemma last_duration_cons v a l :
  l ≠ [] → last_duration v (a :: l) = a :: last_duration v l.
Proof. by destruct l. Qed.

Lemma gaps_not_nil a l : gaps (a :: l) ≠ [].
Proof. intros H%(f_equal length). by rewrite length_gaps in H. Qed.

Lemma duration_gap v l : ∀ i f g,
  last_duration v (gaps l) !! i = Some f →
  last_duration v (gaps l) !! S i = Some g →
  Frame.duration f = js_sub (Frame.timestamp g) (Frame.timestamp f).
Proof.
  induction l as [|a [|b l] IH]; intros i f g Hf Hg; try done.
  - change (gaps (a :: b :: l)) with
      (Frame.set_duration (js_sub (Frame.timestamp b) (Frame.timestamp a)) a :: gaps (b :: l))
      in Hf, Hg.
    rewrite last_duration_cons in Hf, Hg by apply gaps_not_nil.
    destruct i as [|i]; [|by eapply IH].
    pose proof (timestamps_last_duration v (gaps (b :: l))) as Hts.
    rewrite timestamps_gaps in Hts.
    set (L := last_duration v (gaps (b :: l))) in *.
    simpl in Hf, Hg. injection Hf as <-. simpl.
    apply (f_equal (λ ts, ts !! 0%nat)) in Hts.
    rewrite list_lookup_fmap, Hg in Hts. simpl in Hts. by injection Hts as ->.
Qed.

Lemma duration_last v l f :
  last_duration v l !! (length l - 1)%nat = Some f → Frame.duration f = v.
Proof.
  induction l as [|a [|b l] IH]; intros Hf; try done.
  - simpl in Hf. by injection Hf as <-.
  - rewrite last_duration_cons in Hf by done.
    simpl in Hf, IH. rewrite Nat.sub_0_r in IH. by apply IH.
Qed.

Lemma duration_gap_normalized fs i f g :
  normalized fs !! i = Some f → normalized fs !! S i = Some g →
  Frame.duration f = js_sub (Frame.timestamp g) (Frame.timestamp f).
Proof. destruct fs; [done|]. apply duration_gap. Qed.

Lemma duration_last_normalized fs f :
  normalized fs !! (length fs - 1)%nat = Some f → Frame.duration f = Num 1.
Proof.
  destruct fs as [|f0 fs]; [done|]. unfold normalized. intros Hf.
  eapply duration_last. by rewrite length_gaps, length_rebase.
Qed.

(** ** Equations of the methods *)


Lemma reset_eq p : reset p = (Normal (), cleared p).
Proof. done. Qed.

Lemma showCurrentFrame_eq p f :
  js_index (frames p) (current_frame p) = Some f →
  showCurrentFrame p = (Normal (), shown f p).
Proof.
  intros Hf. unfold showCurrentFrame, mbind, M_bind, get. simpl.
  rewrite Hf. simpl. unfold shown. destruct p as [? ? ? ? ? cb ? ? ? ? ? ?]. by destruct cb.
Qed.

Lemma showCurrentFrame_core p : same_core p (after showCurrentFrame p).
Proof.
  unfold after, showCurrentFrame, mbind, M_bind, get. simpl.
  destruct (js_index _ _); simpl; [|done].
  destruct p as [? ? ? ? ? cb ? ? ? ? ? ?]. by destruct cb.
Qed.

Lemma nextFrame_eq p :
  nextFrame p =
  if js_is_undefined (current_frame p) || negb (loaded p) then (Normal (), p)
  else showCurrentFrame
         (set_current_frame
            (js_rem (js_add (current_frame p) (Num 1)) (js_length (frames p))) p).
Proof.
  unfold nextFrame, mbind, M_bind, get. by destruct (_ || _).
Qed.

Lemma previousFrame_eq p :
  previousFrame p =
  if js_is_undefined (current_frame p) || negb (loaded p) then (Normal (), p)
  else showCurrentFrame
         (set_current_frame
            (js_rem (js_sub (js_add (js_length (frames p)) (current_frame p)) (Num 1))
                    (js_length (frames p))) p).
Proof.
  unfold previousFrame, mbind, M_bind, get. by destruct (_ || _).
Qed.

Lemma pointCloudLoaded_eq points meta p :
  pointCloudLoaded points meta p =
  if negb (current p (points, meta)) then (Normal (), p)
  else if bool_decide (S (length (frames p)) = Meta.num_frames meta)
       then nextFrame (completed (points, meta) p)
       else (Normal (), stored (points, meta) p).
Proof.
  unfold pointCloudLoaded, current. unfold mbind at 1. unfold M_bind at 1. unfold get at 1.
  simpl. destruct (negb _); [done|].
  erewrite bind_normal by reflexivity.
  erewrite bind_normal by reflexivity.
  erewrite bind_normal by reflexivity.
  unfold completed, stored, frame_of. cbn [frames set_frames fst snd].
  rewrite !length_app, !Nat.add_1_r.
  case_bool_decide; [|done].
  erewrite bind_normal by apply normalizeFrames_eq.
  done.
Qed.

Lemma createNextFrameTimer_eq p f :
  js_index (frames p) (current_frame p) = Some f →
  createNextFrameTimer p =
  (Normal (), set_timers (timers p ++ [js_mul (Num 1000) (Frame.duration f)]) p).
Proof.
  intros Hf. unfold createNextFrameTimer, mbind, M_bind, get. simpl. by rewrite Hf.
Qed.


Lemma play_eq p :
  play p =
  if bool_decide (length (frames p) < 2)%nat then (Normal false, p)
  else if negb (loaded p) then (Normal false, p)
  else if is_playing p then (Normal false, set_is_playing false p)
  else match js_index (frames p) (current_frame p) with
       | Some f =>
           (Normal true,
            set_timers (timers p ++ [js_mul (Num 1000) (Frame.duration f)])
              (set_is_playing true p))
       | None => (TypeError, set_is_playing true p)
       end.
Proof.
  unfold play, mbind, M_bind, get.
  case_bool_decide; [done|]. destruct (loaded p); [|done]. simpl.
  destruct (is_playing p) eqn:E; [done|].
  unfold createNextFrameTimer, mbind, M_bind, get. simpl.
  by destruct (js_index _ _).
Qed.

Lemma playNextFrameCallback_eq p :
  playNextFrameCallback p =
  if negb (is_playing p) then (Normal (), p)
  else (nextFrame ≫= λ _, createNextFrameTimer) p.
Proof.
  unfold playNextFrameCallback. unfold mbind at 1. unfold M_bind at 1. unfold get.
  by destruct (negb _).
Qed.

(** ** Indexing *)


Lemma js_index_in_range {A : Type} (l : list A) i :
  0 ≤ i < Z.of_nat (length l) → is_Some (js_index l (Num i)).
Proof.
  intros Hi. unfold js_index. rewrite decide_True by lia.
  apply lookup_lt_is_Some_2. lia.
Qed.


Lemma js_rem_length {A : Type} (l : list A) x :
  l ≠ [] → 0 ≤ x →
  js_rem (Num x) (js_length l) = Num (x `mod` Z.of_nat (length l)).
Proof.
  intros Hl Hx. unfold js_rem, js_length.
  destruct l; [done|]. rewrite decide_False by (simpl; lia).
  by rewrite Z.rem_mod_nonneg by (simpl; lia).
Qed.

(** ** Stepping *)

Lemma nextFrame_step p i :
  loaded p = true → current_frame p = Num i → 0 ≤ i < Z.of_nat (length (frames p)) →
  ∃ f, js_index (frames p) (Num ((i + 1) `mod` Z.of_nat (length (frames p)))) = Some f ∧
       nextFrame p =
       (Normal (),
        shown f (set_current_frame (Num ((i + 1) `mod` Z.of_nat (length (frames p)))) p)).
Proof.
  intros Hl Hc Hi.
  destruct (js_index_in_range (frames p) ((i + 1) `mod` Z.of_nat (length (frames p))))
    as [f Hf]; [apply Z.mod_pos_bound; lia|].
  exists f. split; [done|].
  rewrite nextFrame_eq, Hc, Hl. cbn [js_is_undefined orb negb js_add].
  rewrite js_rem_length by (try lia; intros E; rewrite E in Hi; simpl in Hi; lia).
  by apply showCurrentFrame_eq.
Qed.

Lemma previousFrame_step p i :
  loaded p = true → current_frame p = Num i → 0 ≤ i < Z.of_nat (length (frames p)) →
  ∃ f, js_index (frames p) (Num ((i - 1) `mod` Z.of_nat (length (frames p)))) = Some f ∧
       previousFrame p =
       (Normal (),
        shown f (set_current_frame (Num ((i - 1) `mod` Z.of_nat (length (frames p)))) p)).
Proof.
  intros Hl Hc Hi.
  destruct (js_index_in_range (frames p) ((i - 1) `mod` Z.of_nat (length (frames p))))
    as [f Hf]; [apply Z.mod_pos_bound; lia|].
  exists f. split; [done|].
  rewrite previousFrame_eq, Hc, Hl. cbn [js_is_undefined orb negb js_add js_sub js_length].
  change (Num (Z.of_nat (length (frames p)))) with (js_length (frames p)).
  rewrite js_rem_length by (try lia; intros E; rewrite E in Hi; simpl in Hi; lia).
  replace ((Z.of_nat (length (frames p)) + i - 1) `mod` Z.of_nat (length (frames p)))
    with ((i - 1) `mod` Z.of_nat (length (frames p))).
  - by apply showCurrentFrame_eq.
  - replace (Z.of_nat (length (frames p)) + i - 1)
      with (i - 1 + 1 * Z.of_nat (length (frames p))) by lia.
    by rewrite Z.mod_add by lia.
Qed.

(** ** The invariants *)

Lemma inv_same_core p q : same_core p q → inv p → inv q.
Proof.
  intros (_ & Hp & Hl & Hf & Hc & _). unfold inv, index_in_range.
  by rewrite Hp, Hl, Hf, Hc.
Qed.


Lemma same_core_trans p q r : same_core p q → same_core q r → same_core p r.
Proof.
  intros (?&?&?&?&?&?) (?&?&?&?&?&?). unfold same_core. repeat split; congruence.
Qed.

Lemma inv_cleared p : inv (cleared p).
Proof. by unfold inv. Qed.

Lemma inv_constructor cb : inv (constructor cb).
Proof. by unfold inv. Qed.

Lemma loadPointClouds_loop_core name n ty rest : ∀ index p,
  same_core p (after (loadPointClouds_loop name n ty index rest) p).
Proof.
  induction rest as [|frame rest IH]; intros index p; [done|].
  unfold after. simpl. destruct (zero_loose_eq _); [done|].
  unfold mbind at 1. unfold M_bind at 1.
  destruct (clouds_get _ _) as [cloud|]; simpl; [|done].
  eapply same_core_trans; [|apply IH]. done.
Qed.

Lemma loadPointClouds_core name fs ty p :
  same_core (cleared p) (after (loadPointClouds name fs ty) p).
Proof.
  unfold after, loadPointClouds.
  erewrite bind_normal by reflexivity.
  erewrite bind_normal by reflexivity.
  case_bool_decide; [done|].
  eapply same_core_trans; [|apply loadPointClouds_loop_core]. done.
Qed.

Lemma inv_nextFrame p : inv p → inv (after nextFrame p).
Proof.
  intros Hinv. unfold after. rewrite nextFrame_eq.
  destruct (js_is_undefined _ || negb _) eqn:E; [done|].
  apply orb_false_iff in E as [Hu Hl]. apply negb_false_iff in Hl.
  destruct Hinv as (HA & HB & HC).
  assert (current_frame p ≠ Undefined) as Hd by (by destruct (current_frame p)).
  specialize (HB Hd). unfold index_in_range in HB.
  destruct (current_frame p) as [| |i] eqn:Hc; try done.
  eapply inv_same_core; [apply showCurrentFrame_core|].
  cbn [js_add]. rewrite js_rem_length by (try lia; intros E; rewrite E in HB; simpl in HB; lia).
  unfold inv, index_in_range. simpl. split_and!; [done| |done].
  intros _. apply Z.mod_pos_bound. lia.
Qed.

Lemma inv_previousFrame p : inv p → inv (after previousFrame p).
Proof.
  intros Hinv. unfold after. rewrite previousFrame_eq.
  destruct (js_is_undefined _ || negb _) eqn:E; [done|].
  apply orb_false_iff in E as [Hu Hl]. apply negb_false_iff in Hl.
  destruct Hinv as (HA & HB & HC).
  assert (current_frame p ≠ Undefined) as Hd by (by destruct (current_frame p)).
  specialize (HB Hd). unfold index_in_range in HB.
  destruct (current_frame p) as [| |i] eqn:Hc; try done.
  eapply inv_same_core; [apply showCurrentFrame_core|].
  cbn [js_add js_sub js_length].
  change (Num (Z.of_nat (length (frames p)))) with (js_length (frames p)).
  rewrite js_rem_length by (try lia; intros E; rewrite E in HB; simpl in HB; lia).
  unfold inv, index_in_range. simpl. split_and!; [done| |done].
  intros _. apply Z.mod_pos_bound. lia.
Qed.

Lemma length_completed r p :
  length (frames (completed r p)) = S (length (frames p)).
Proof.
  unfold completed, stored. simpl.
  by rewrite length_normalized, length_array_sort, length_app, Nat.add_1_r.
Qed.

Lemma completed_shown r p :
  ∃ f, frames (completed r p) !! 0%nat = Some f ∧
       nextFrame (completed r p) =
       (Normal (), shown f (set_current_frame (Num 0) (completed r p))).
Proof.
  pose proof (length_completed r p) as Hlen.
  destruct (lookup_lt_is_Some_2 (frames (completed r p)) 0%nat) as [f Hf]; [lia|].
  exists f. split; [done|].
  rewrite nextFrame_eq.
  change (current_frame (completed r p)) with (Num (-1)).
  change (loaded (completed r p)) with true.
  cbn [js_is_undefined orb negb js_add].
  change (-1 + 1) with 0.
  rewrite js_rem_length; [|intros E; by rewrite E in Hlen|done].
  rewrite Z.mod_0_l by lia.
  by apply showCurrentFrame_eq.
Qed.

Lemma pointCloudLoaded_stale points meta p :
  event_identifier p ≠ Meta.event_identifier meta →
  pointCloudLoaded points meta p = (Normal (), p).
Proof.
  intros H. rewrite pointCloudLoaded_eq. unfold current. simpl.
  by rewrite bool_decide_eq_false_2.
Qed.

Lemma inv_pointCloudLoaded points meta p :
  inv p → inv (after (pointCloudLoaded points meta) p).
Proof.
  intros Hinv. unfold after. rewrite pointCloudLoaded_eq.
  destruct (negb _); [done|]. case_bool_decide.
  - destruct (completed_shown (points, meta) p) as (f & Hf & ->).
    pose proof (length_completed (points, meta) p) as Hlen.
    destruct Hinv as (HA & HB & HC).
    unfold inv, index_in_range. cbn [snd shown current_frame loaded is_playing frames
      set_current_frame]. 
    split_and!; [done|intros _; lia|].
    change (is_playing (completed (points, meta) p)) with (is_playing p).
    change (loaded (completed (points, meta) p)) with true.
    intros [_ ?]%HC. split; [done|lia].
  - destruct Hinv as (HA & HB & HC). unfold inv, index_in_range in *. simpl.
    rewrite length_app. split_and!; [done| |].
    + intros Hd. specialize (HB Hd). destruct (current_frame p); try done. lia.
    + intros [? ?]%HC. split; [done|lia].
Qed.

Lemma inv_normalizeFrames p : inv p → inv (after normalizeFrames p).
Proof.
  unfold after. rewrite normalizeFrames_eq. unfold inv, index_in_range. simpl.
  by rewrite length_normalized, length_array_sort.
Qed.

Lemma inv_normalizeTimeStamps p : inv p → inv (after normalizeTimeStamps p).
Proof.
  unfold after. rewrite normalizeTimeStamps_eq. unfold inv, index_in_range. simpl.
  by rewrite length_normalized.
Qed.

Lemma createNextFrameTimer_core p : same_core p (after createNextFrameTimer p).
Proof.
  unfold after, createNextFrameTimer, mbind, M_bind, get. simpl.
  by destruct (js_index _ _).
Qed.

Lemma inv_play p : inv p → inv (after play p).
Proof.
  intros Hinv. unfold after. rewrite play_eq.
  case_bool_decide as Hlen; [done|].
  destruct (loaded p) eqn:Hl; [|done]. simpl.
  destruct Hinv as (HA & HB & HC).
  destruct (is_playing p) eqn:Hp.
  - unfold inv, index_in_range. simpl. by rewrite Hl.
  - assert (inv (set_is_playing true p)) as Hinv'.
    { unfold inv, index_in_range. simpl. rewrite Hl. split_and!; [done..|]. 
      intros _. split; [done|lia]. }
    destruct (js_index _ _); [|done].
    eapply inv_same_core; [|exact Hinv']. done.
Qed.

Lemma inv_playNextFrameCallback p : inv p → inv (after playNextFrameCallback p).
Proof.
  intros Hinv. unfold after. rewrite playNextFrameCallback_eq.
  destruct (negb _); [done|].
  pose proof (inv_nextFrame p Hinv) as Hn. unfold after in Hn.
  unfold mbind, M_bind. destruct (nextFrame p) as [[[]|] q]; [|done].
  eapply inv_same_core; [apply createNextFrameTimer_core|done].
Qed.

Lemma loadSinglePointCloud_eq full_path p :
  loadSinglePointCloud full_path p =
  (Normal (),
   set_requests (requests p ++ [(full_path, POINT_CLOUD_NAME, single_meta p)]) (cleared p)).
Proof. done. Qed.

Lemma inv_call m p : inv p → inv (call m p).
Proof.
  intros Hinv. destruct m; simpl.
  - eapply inv_same_core; [apply loadPointClouds_core|apply inv_cleared].
  - by eapply inv_same_core; [|exact Hinv].
  - unfold after. rewrite loadSinglePointCloud_eq. done.
  - unfold after. rewrite reset_eq. apply inv_cleared.
  - by apply inv_pointCloudLoaded.
  - by apply inv_normalizeFrames.
  - by apply inv_normalizeTimeStamps.
  - by eapply inv_same_core; [|exact Hinv].
  - by apply inv_nextFrame.
  - by apply inv_previousFrame.
  - by eapply inv_same_core; [apply showCurrentFrame_core|].
  - by apply inv_play.
  - destruct Hinv as (HA & HB & HC). by unfold inv, index_in_range.
  - by eapply inv_same_core; [apply createNextFrameTimer_core|].
  - by apply inv_playNextFrameCallback.
Qed.

Lemma inv_step ev p : inv p → inv (step ev p).
Proof.
  intros Hinv. destruct ev; simpl.
  - by apply (inv_call (m_loadPointClouds _ _ _)).
  - by apply (inv_call (m_loadSinglePointCloud _)).
  - by apply (inv_call m_reset).
  - by apply (inv_call m_play).
  - by apply (inv_call m_pause).
  - by apply (inv_call m_nextFrame).
  - by apply (inv_call m_previousFrame).
  - destruct (requests p !! k) as [[[? ?] meta]|]; [|done].
    apply inv_pointCloudLoaded. by eapply inv_same_core; [|exact Hinv].
  - by eapply inv_same_core; [|exact Hinv].
  - destruct (timers p !! k); [|done].
    apply inv_playNextFrameCallback. by eapply inv_same_core; [|exact Hinv].
Qed.

(** ** What holds in reachable states *)

Lemma length_shown_scene f p :
  (length (scene p) ≤ 1)%nat → (length (scene (shown f p)) ≤ 1)%nat.
Proof.
  intros H. simpl. destruct (scene p) as [|x [|y s]]; simpl in *; lia.
Qed.

Lemma scene_shown f p :
  (length (scene p) ≤ 1)%nat → scene (shown f p) = [Frame.points f].
Proof.
  intros H. simpl. destruct (scene p) as [|x [|y s]]; simpl in *; done || lia.
Qed.

Lemma ready_inv p : ready p → inv p.
Proof. by intros [? _]. Qed.

Lemma ready_index p :
  ready p → loaded p = true →
  ∃ i, current_frame p = Num i ∧ 0 ≤ i < Z.of_nat (length (frames p)).
Proof.
  intros ((_ & HB & _) & HD & _) Hl. specialize (HB (HD Hl)).
  unfold index_in_range in HB. destruct (current_frame p) as [| |i]; try done. eauto.
Qed.

Lemma ready_nextFrame p : ready p → ready (after nextFrame p).
Proof.
  intros Hr. split; [apply inv_nextFrame, Hr|].
  destruct (loaded p) eqn:Hl.
  - destruct (ready_index p Hr Hl) as (i & Hc & Hi).
    destruct (nextFrame_step p i Hl Hc Hi) as (f & _ & E).
    unfold after. rewrite E. split; [done|]. apply length_shown_scene, Hr.
  - unfold after. rewrite nextFrame_eq, Hl, orb_true_r. apply Hr.
Qed.

Lemma ready_previousFrame p : ready p → ready (after previousFrame p).
Proof.
  intros Hr. split; [apply inv_previousFrame, Hr|].
  destruct (loaded p) eqn:Hl.
  - destruct (ready_index p Hr Hl) as (i & Hc & Hi).
    destruct (previousFrame_step p i Hl Hc Hi) as (f & _ & E).
    unfold after. rewrite E. split; [done|]. apply length_shown_scene, Hr.
  - unfold after. rewrite previousFrame_eq, Hl, orb_true_r. apply Hr.
Qed.

Lemma ready_cleared p : ready p → ready (cleared p).
Proof.
  intros (_ & _ & Hs). split; [apply inv_cleared|]. split; [done|].
  simpl. destruct (scene p); simpl in *; lia.
Qed.

Lemma ready_constructor cb : ready (constructor cb).
Proof. split; [apply inv_constructor|]. split; [done|]. simpl. lia. Qed.

Lemma loadPointClouds_loop_scene name n ty rest : ∀ index p,
  scene (after (loadPointClouds_loop name n ty index rest) p) = scene p.
Proof.
  induction rest as [|frame rest IH]; intros index p; [done|].
  unfold after. simpl. destruct (zero_loose_eq _); [done|].
  unfold mbind at 1. unfold M_bind at 1.
  destruct (clouds_get _ _) as [cloud|]; simpl; [|done].
  etrans; [apply (IH (S index))|done].
Qed.

Lemma loadPointClouds_eq name fs ty p :
  loadPointClouds name fs ty p =
  let q := cleared (set_status_log (status_log p ++ ["Loading point clouds."]) p) in
  if bool_decide (0%nat = length fs)
  then (Normal (), set_status_log (status_log q ++ ["No frames in scene."]) q)
  else loadPointClouds_loop name (length fs) ty 0 fs q.
Proof.
  unfold loadPointClouds.
  erewrite bind_normal by reflexivity.
  erewrite bind_normal by reflexivity.
  simpl. by case_bool_decide.
Qed.

Lemma ready_loadPointClouds name fs ty p :
  ready p → ready (after (loadPointClouds name fs ty) p).
Proof.
  intros Hr. pose proof (loadPointClouds_core name fs ty p) as Hc.
  split; [eapply inv_same_core; [exact Hc|apply inv_cleared]|].
  destruct Hc as (_ & _ & -> & _ & -> & _). split; [done|].
  apply ready_cleared in Hr as (_ & _ & Hs).
  unfold after. rewrite loadPointClouds_eq. cbv zeta. case_bool_decide; [done|].
  pose proof (loadPointClouds_loop_scene name (length fs) ty fs 0%nat
    (cleared (set_status_log (status_log p ++ ["Loading point clouds."]) p))) as E.
  unfold after in E. rewrite E. exact Hs.
Qed.

Lemma ready_pointCloudLoaded points meta p :
  ready p → ready (after (pointCloudLoaded points meta) p).
Proof.
  intros Hr. split; [apply inv_pointCloudLoaded, Hr|].
  unfold after. rewrite pointCloudLoaded_eq.
  destruct (negb _); [apply Hr|]. case_bool_decide.
  - destruct (completed_shown (points, meta) p) as (f & Hf & ->).
    split; [done|]. apply length_shown_scene. apply Hr.
  - apply Hr.
Qed.

Lemma ready_play p : ready p → ready (after play p).
Proof.
  intros Hr. split; [apply inv_play, Hr|].
  destruct Hr as (_ & HD & Hs).
  unfold after. rewrite play_eq.
  case_bool_decide; [done|]. destruct (loaded p) eqn:Hl; simpl; [|by rewrite Hl].
  destruct (is_playing p); [by simpl; rewrite Hl|].
  destruct (js_index _ _); simpl; by rewrite Hl.
Qed.

Lemma ready_createNextFrameTimer p : ready p → ready (after createNextFrameTimer p).
Proof.
  intros Hr. split; [by eapply inv_same_core; [apply createNextFrameTimer_core|apply Hr]|].
  unfold after, createNextFrameTimer, mbind, M_bind, get. simpl.
  destruct (js_index _ _); apply Hr.
Qed.

Lemma ready_playNextFrameCallback p : ready p → ready (after playNextFrameCallback p).
Proof.
  intros Hr. unfold after. rewrite playNextFrameCallback_eq.
  destruct (negb _); [done|].
  pose proof (ready_nextFrame p Hr) as Hn. unfold after in Hn.
  unfold mbind, M_bind. destruct (nextFrame p) as [[[]|] q]; [|done].
  by apply ready_createNextFrameTimer.
Qed.

Lemma ready_step ev p : ready p → ready (step ev p).
Proof.
  intros Hr. destruct ev; simpl.
  - by apply ready_loadPointClouds.
  - unfold after. rewrite loadSinglePointCloud_eq. by apply ready_cleared in Hr.
  - unfold after. rewrite reset_eq. by apply ready_cleared.
  - by apply ready_play.
  - destruct Hr as ((HA & HB & HC) & HD & Hs). by unfold ready, inv, index_in_range.
  - by apply ready_nextFrame.
  - by apply ready_previousFrame.
  - destruct (requests p !! k) as [[[? ?] meta]|]; [|done].
    by apply ready_pointCloudLoaded.
  - done.
  - destruct (timers p !! k); [|done]. by apply ready_playNextFrameCallback.
Qed.

Lemma ready_run evs : ∀ p, ready p → ready (run evs p).
Proof.
  induction evs as [|ev evs IH]; intros p Hr; [done|].
  simpl. apply IH. by apply ready_step.
Qed.

Lemma reachable_ready p : reachable p → ready p.
Proof. intros (cb & evs & ->). apply ready_run, ready_constructor. Qed.

Lemma reachable_step ev p : reachable p → reachable (step ev p).
Proof.
  intros (cb & evs & ->). exists cb, (evs ++ [ev]). unfold run. by rewrite foldl_app.
Qed.

(** * Properties of the Player *)

(** ** Normalisation *)



(** ** An empty scene *)

(** C7.  [loadPointClouds(name, [], type)] reports "No frames in scene."
    after the opening status text, issues no load request and leaves
    [loaded] false. *)
Theorem loadPointClouds_no_frames (p : Player) (name type_identifier : string) :
  ∃ q, loadPointClouds name [] type_identifier p = (Normal (), q) ∧
       status_log q = status_log p ++ ["Loading point clouds."; "No frames in scene."] ∧
       requests q = requests p ∧
       loaded q = false ∧
       frames q = [].
Proof.
  eexists. split; [by rewrite loadPointClouds_eq|].
  simpl. by rewrite <- app_assoc.
Qed.

(** ** The state invariants *)

(** C9.  A fresh Player satisfies the state invariants, and every method of
    the class and every step of the event loop preserves them, whether the
    call returns or throws: a current frame is defined only when [loaded] is
    true, a defined current frame lies in [[0, frames.length)], and
    [is_playing] implies [loaded] and at least two frames. *)
Theorem operations_preserve_invariants :
  (∀ cb, inv (constructor cb)) ∧
  (∀ m p, inv p → inv (call m p)) ∧
  (∀ ev p, inv p → inv (step ev p)) ∧
  (∀ p, reachable p → inv p).
Proof.
  split_and!.
  - apply inv_constructor.
  - apply inv_call.
  - apply inv_step.
  - intros p Hp. apply ready_inv, reachable_ready, Hp.
Qed.

Lemma operations_preserve_invariants_witness :
  inv demo_ready ∧ inv (call m_play demo_ready) ∧ inv (step (EvTimerFired 0) (call m_play demo_ready)).
Proof.
  pose proof operations_preserve_invariants as (_ & Hcall & Hstep & _).
  assert (H0 : inv demo_ready)
    by (unfold inv, index_in_range; vm_compute; split_and!; done).
  split; [exact H0|]. split; [exact (Hcall m_play _ H0)|].
  exact (Hstep _ _ (Hcall m_play _ H0)).
Defined.

(** ** Playing *)

Lemma reachable_demo_ready : reachable demo_ready.
Proof. exists false, demo_loading. by vm_compute. Qed.

Lemma play_from_paused p :
  ready p → loaded p = true → (2 ≤ length (frames p))%nat → is_playing p = false →
  ∃ f, js_index (frames p) (current_frame p) = Some f ∧
       play p =
       (Normal true,
        set_timers (timers p ++ [js_mul (Num 1000) (Frame.duration f)])
          (set_is_playing true p)).
Proof.
  intros Hr Hl Hlen Hp.
  destruct (ready_index p Hr Hl) as (i & Hc & Hi).
  destruct (js_index_in_range (frames p) i Hi) as [f Hf].
  exists f. rewrite Hc. split; [done|].
  rewrite play_eq, bool_decide_eq_false_2, Hl, Hp, Hc, Hf by lia. done.
Qed.

(** C4.  [play()] returns false and changes nothing when there are fewer
    than two frames or the scene is not loaded.  In a state the event loop
    reaches, with the scene loaded, at least two frames and the Player
    paused, it sets [is_playing], arms the timer of the current frame and
    returns true.  When the Player is already playing it does what
    [pause()] does and returns the new playing state, false. *)
Theorem play_toggles (p : Player) :
  ((length (frames p) < 2)%nat ∨ loaded p = false → play p = (Normal false, p)) ∧
  (reachable p → loaded p = true → (2 ≤ length (frames p))%nat → is_playing p = false →
     ∃ f, js_index (frames p) (current_frame p) = Some f ∧
          play p =
          (Normal true,
           set_timers (timers p ++ [js_mul (Num 1000) (Frame.duration f)])
             (set_is_playing true p))) ∧
  (loaded p = true → (2 ≤ length (frames p))%nat → is_playing p = true →
     play p = (Normal false, after pause p) ∧ is_playing (after pause p) = false).
Proof.
  split_and!.
  - intros [Hlen|Hl]; rewrite play_eq.
    + by rewrite bool_decide_eq_true_2.
    + rewrite Hl. simpl. by case_bool_decide.
  - intros Hr%reachable_ready. by apply play_from_paused.
  - intros Hl Hlen Hp. split; [|done].
    rewrite play_eq, bool_decide_eq_false_2, Hl, Hp by lia. done.
Qed.

Lemma play_toggles_witness :
  play (constructor false) = (Normal false, constructor false) ∧
  (play demo_ready).1 = Normal true ∧
  is_playing (after play demo_ready) = true ∧
  timers (after play demo_ready) = [Num 2000] ∧
  (play (after play demo_ready)).1 = Normal false ∧
  is_playing (after play (after play demo_ready)) = false.
Proof.
  split; [apply (proj1 (play_toggles (constructor false))); left; simpl; lia|].
  destruct (proj1 (proj2 (play_toggles demo_ready)))
    as (f & Hf & E);
    [by exists false, demo_loading | reflexivity | vm_compute; lia | reflexivity |].
  assert (f = Frame.mk (Num 0) (Some "a.pcd") (Some "s") 11%nat (Num 2)) as ->
    by (vm_compute in Hf; congruence).
  unfold after. rewrite E. split; [done|]. split; [done|]. split; [done|].
  destruct (proj2 (proj2 (play_toggles
    (set_timers (timers demo_ready ++ [js_mul (Num 1000) (Num 2)])
       (set_is_playing true demo_ready)))))
    as (E2 & Hp); [reflexivity | vm_compute; lia | reflexivity |].
  cbn [snd Frame.duration]. rewrite E2. split; [done|exact Hp].
Defined.

(** ** Stepping through the frames *)

Lemma nextFrame_iter p i : ∀ k,
  loaded p = true → current_frame p = Num i → 0 ≤ i < Z.of_nat (length (frames p)) →
  let q := Nat.iter k (after nextFrame) p in
  loaded q = true ∧ frames q = frames p ∧
  current_frame q = Num ((i + Z.of_nat k) `mod` Z.of_nat (length (frames p))).
Proof.
  intros k Hl Hc Hi. induction k as [|k IH].
  - simpl. rewrite Z.add_0_r, Z.mod_small by lia. done.
  - cbn zeta in *. rewrite Nat.iter_succ.
    set (q := Nat.iter k (after nextFrame) p) in *.
    destruct IH as (Hl' & Hf' & Hc').
    destruct (nextFrame_step _ _ Hl' Hc') as (f & _ & E).
    { rewrite Hf'. apply Z.mod_pos_bound. lia. }
    unfold after. rewrite E. cbn [snd shown loaded frames current_frame
      set_current_frame].
    rewrite Hf'. split_and!; [done..|].
    f_equal. rewrite Zplus_mod_idemp_l. f_equal. lia.
Qed.

(** C8.  In a state the event loop reaches with the scene loaded, the
    current frame is an index [i] into the [N] frames, [nextFrame()] moves
    it to [(i + 1) mod N] and [previousFrame()] to [(i - 1) mod N]:
    [previousFrame()] from index 0 gives [N - 1], [N] calls of
    [nextFrame()] from index 0 give 0 again, and each of the two undoes the
    other. *)
Theorem frames_wrap_around (p : Player) :
  reachable p → loaded p = true →
  ∃ i, current_frame p = Num i ∧ 0 ≤ i < Z.of_nat (length (frames p)) ∧
       (nextFrame p).1 = Normal () ∧
       (previousFrame p).1 = Normal () ∧
       current_frame (after nextFrame p) = Num ((i + 1) `mod` Z.of_nat (length (frames p))) ∧
       current_frame (after previousFrame p) = Num ((i - 1) `mod` Z.of_nat (length (frames p))) ∧
       (i = 0 →
          current_frame (Nat.iter (length (frames p)) (after nextFrame) p) = Num 0) ∧
       (i = 0 →
          current_frame (after previousFrame p) = Num (Z.of_nat (length (frames p)) - 1)) ∧
       current_frame (after previousFrame (after nextFrame p)) = current_frame p ∧
       current_frame (after nextFrame (after previousFrame p)) = current_frame p.
Proof.
  intros Hr%reachable_ready Hl.
  destruct (ready_index p Hr Hl) as (i & Hc & Hi).
  set (n := Z.of_nat (length (frames p))) in *.
  exists i. split; [done|]. split; [done|].
  destruct (nextFrame_step p i Hl Hc Hi) as (f & _ & En).
  destruct (previousFrame_step p i Hl Hc Hi) as (g & _ & Ep).
  fold n in En, Ep.
  assert (Hiter : i = 0 →
    current_frame (Nat.iter (length (frames p)) (after nextFrame) p) = Num 0).
  { intros ->. destruct (nextFrame_iter p 0 (length (frames p)) Hl Hc Hi) as (_ & _ & ->).
    fold n. by rewrite Z.add_0_l, Z.mod_same by lia. }
  split_and!; [by rewrite En|by rewrite Ep|by unfold after; rewrite En
              |by unfold after; rewrite Ep|exact Hiter|..];
    unfold after; rewrite ?En, ?Ep; cbn [fst snd shown current_frame set_current_frame].
  - intros ->. f_equal. rewrite <- (Z.mod_small (n - 1) n) by lia.
    replace (0 - 1) with (n - 1 + (-1) * n) by lia. by rewrite Z.mod_add by lia.
  - destruct (previousFrame_step (shown f (set_current_frame (Num ((i + 1) `mod` n)) p))
                ((i + 1) `mod` n)) as (h & _ & E); [done|done| |].
    { cbn [shown frames set_current_frame]. apply Z.mod_pos_bound. lia. }
    rewrite E. cbn [snd shown current_frame set_current_frame frames]. fold n.
    rewrite Hc. f_equal. rewrite Zminus_mod_idemp_l.
    replace (i + 1 - 1) with i by lia. apply Z.mod_small. lia.
  - destruct (nextFrame_step (shown g (set_current_frame (Num ((i - 1) `mod` n)) p))
                ((i - 1) `mod` n)) as (h & _ & E); [done|done| |].
    { cbn [shown frames set_current_frame]. apply Z.mod_pos_bound. lia. }
    rewrite E. cbn [snd shown current_frame set_current_frame frames]. fold n.
    rewrite Hc. f_equal. rewrite Zplus_mod_idemp_l.
    replace (i - 1 + 1) with i by lia. apply Z.mod_small. lia.
Qed.

Lemma frames_wrap_around_witness :
  ∃ i, current_frame demo_ready = Num i ∧ 0 ≤ i < 2 ∧
       current_frame (after nextFrame demo_ready) = Num ((i + 1) `mod` 2) ∧
       current_frame (after previousFrame demo_ready) = Num ((i - 1) `mod` 2) ∧
       current_frame (after previousFrame (after nextFrame demo_ready)) = Num i.
Proof.
  destruct (frames_wrap_around demo_ready)
    as (i & Hc & Hi & _ & _ & Hn & Hp & _ & _ & Hpn & _);
    [by exists false, demo_loading | reflexivity |].
  exists i. split; [exact Hc|]. split; [exact Hi|]. split; [exact Hn|].
  split; [exact Hp|]. rewrite <- Hc. exact Hpn.
Defined.

(** ** Pending timers *)

Lemma timer_fires_while_playing p k d :
  ready p → is_playing p = true → timers p !! k = Some d →
  ∃ i f, current_frame p = Num i ∧
         js_index (frames p) (Num ((i + 1) `mod` Z.of_nat (length (frames p)))) = Some f ∧
         current_frame (step (EvTimerFired k) p)
           = Num ((i + 1) `mod` Z.of_nat (length (frames p))) ∧
         timers (step (EvTimerFired k) p)
           = delete k (timers p) ++ [js_mul (Num 1000) (Frame.duration f)].
Proof.
  intros Hr Hp Hd.
  assert (Hl : loaded p = true) by (by apply Hr).
  destruct (ready_index p Hr Hl) as (i & Hc & Hi).
  set (p' := set_timers (delete k (timers p)) p).
  destruct (nextFrame_step p' i Hl Hc Hi) as (f & Hf & E).
  exists i, f. split; [done|]. split; [done|].
  cbn [step]. rewrite Hd. fold p'. unfold after.
  rewrite playNextFrameCallback_eq.
  change (is_playing p') with (is_playing p). rewrite Hp. cbn [negb].
  erewrite bind_normal by exact E.
  erewrite createNextFrameTimer_eq by exact Hf. done.
Qed.

(** C3, as the code has it.  [pause()] clears [is_playing] and leaves every
    pending timer pending.  A timer that fires while the Player is paused
    is consumed without a frame change and without a new timer; one that
    fires while the Player is playing moves to the next frame and arms
    exactly one timer, that of the new frame.  After two calls of [play()]
    on a loaded, paused Player with at least two frames the Player is paused
    again and the timer armed by the first call is still pending. *)
Theorem pause_leaves_timers_pending :
  (∀ p, pause p = (Normal (), set_is_playing false p) ∧
        timers (after pause p) = timers p ∧
        is_playing (after pause p) = false) ∧
  (∀ p k d, is_playing p = false → timers p !! k = Some d →
        step (EvTimerFired k) p = set_timers (delete k (timers p)) p) ∧
  (∀ p k d, reachable p → is_playing p = true → timers p !! k = Some d →
        ∃ i f, current_frame p = Num i ∧
               js_index (frames p) (Num ((i + 1) `mod` Z.of_nat (length (frames p)))) = Some f ∧
               current_frame (step (EvTimerFired k) p)
                 = Num ((i + 1) `mod` Z.of_nat (length (frames p))) ∧
               timers (step (EvTimerFired k) p)
                 = delete k (timers p) ++ [js_mul (Num 1000) (Frame.duration f)]) ∧
  (∀ p, reachable p → loaded p = true → (2 ≤ length (frames p))%nat →
        is_playing p = false →
        ∃ f, js_index (frames p) (current_frame p) = Some f ∧
             after play (after play p)
               = set_timers (timers p ++ [js_mul (Num 1000) (Frame.duration f)]) p).
Proof.
  split_and!.
  - done.
  - intros p k d Hp Hd. cbn [step]. rewrite Hd. unfold after.
    rewrite playNextFrameCallback_eq.
    change (is_playing (set_timers _ p)) with (is_playing p). by rewrite Hp.
  - intros p k d Hr%reachable_ready. by apply timer_fires_while_playing.
  - intros p Hr Hl Hlen Hp.
    destruct (play_from_paused p (reachable_ready p Hr) Hl Hlen Hp) as (f & Hf & E).
    exists f. split; [done|]. unfold after. rewrite E. cbn [snd].
    rewrite play_eq. cbn [frames set_timers set_is_playing loaded is_playing].
    rewrite bool_decide_eq_false_2, Hl by lia. cbn [negb snd].
    destruct p. simpl in *. by subst.
Qed.

Lemma pause_leaves_timers_pending_witness :
  timers (after pause (after play demo_ready)) = [Num 2000] ∧
  step (EvTimerFired 0) (after pause (after play demo_ready)) = demo_ready ∧
  timers (step (EvTimerFired 0) (after play demo_ready)) = [Num 1000] ∧
  after play (after play demo_ready) = set_timers [Num 2000] demo_ready.
Proof.
  pose proof pause_leaves_timers_pending as (Hpause & Hidle & Hfire & Htwice).
  split; [by rewrite (proj1 (proj2 (Hpause _)))|].
  split; [by rewrite (Hidle _ 0%nat (Num 2000))|].
  split.
  - destruct (Hfire (after play demo_ready) 0%nat (Num 2000)) as (i & f & Hc & Hf & _ & ->);
      [by exists false, (demo_loading ++ [EvPlay]) | done | done |].
    assert (i = 0) as -> by (vm_compute in Hc; congruence).
    vm_compute in Hf. by injection Hf as <-.
  - destruct (Htwice demo_ready) as (f & Hf & ->);
      [by exists false, demo_loading | done | vm_compute; lia | done |].
    vm_compute in Hf. by injection Hf as <-.
Defined.

(** C3 fails as stated: three calls of [play()] on the loaded example scene
    leave two timers pending; [pause()] after [play()] leaves the timer of
    [play()] pending; and so do two calls of [play()] in succession. *)
Lemma pending_timers_counterexample :
  ¬ (∀ p, reachable p → (length (timers p) ≤ 1)%nat) ∧
  ¬ (∀ p, reachable p → timers (after pause p) = []) ∧
  ¬ (∀ p, reachable p → loaded p = true → (2 ≤ length (frames p))%nat →
          is_playing p = false → timers p = [] →
          is_playing (after play (after play p)) = false ∧
          timers (after play (after play p)) = []).
Proof.
  split_and!.
  - intros H.
    specialize (H (run [EvPlay; EvPlay; EvPlay] demo_ready)).
    assert (reachable (run [EvPlay; EvPlay; EvPlay] demo_ready)) as Hr.
    { exists false, (demo_loading ++ [EvPlay; EvPlay; EvPlay]). by vm_compute. }
    specialize (H Hr). vm_compute in H. lia.
  - intros H.
    specialize (H (after play demo_ready)
                  (reachable_step EvPlay _ reachable_demo_ready)).
    vm_compute in H. done.
  - intros H.
    destruct (H demo_ready reachable_demo_ready) as [_ Ht];
      [done | vm_compute; lia | done | done |].
    vm_compute in Ht. done.
Qed.

(** ** Stale load results *)

Lemma payload_gaps fs : Frame.payload <$> gaps fs = Frame.payload <$> fs.
Proof.
  induction fs as [|f [|g fs] IH]; try done.
  change (gaps (f :: g :: fs)) with
    (Frame.set_duration (js_sub (Frame.timestamp g) (Frame.timestamp f)) f :: gaps (g :: fs)).
  rewrite !fmap_cons, IH. done.
Qed.

Lemma payload_last_duration v fs :
  Frame.payload <$> last_duration v fs = Frame.payload <$> fs.
Proof.
  induction fs as [|f [|g fs] IH]; try done.
  change (last_duration v (f :: g :: fs)) with (f :: last_duration v (g :: fs)).
  rewrite !fmap_cons, IH. done.
Qed.

Lemma payload_rebase offset fs : Frame.payload <$> rebase offset fs = Frame.payload <$> fs.
Proof. unfold rebase. rewrite <- list_fmap_compose. by apply list_fmap_ext. Qed.

Lemma payload_normalized fs : Frame.payload <$> normalized fs = Frame.payload <$> fs.
Proof.
  destruct fs as [|f0 fs]; [done|]. unfold normalized.
  by rewrite payload_last_duration, payload_gaps, payload_rebase.
Qed.

Lemma pointCloudLoaded_current r p :
  current p r = true →
  ∃ q, pointCloudLoaded r.1 r.2 p = (Normal (), q) ∧
       event_identifier q = event_identifier p ∧
       Frame.payload <$> frames q ≡ₚ (Frame.payload <$> frames p) ++ [Frame.payload (frame_of r)].
Proof.
  intros Hcur. destruct r as [points meta]. cbn [fst snd].
  rewrite pointCloudLoaded_eq, Hcur.
  cbn [negb fst snd]. case_bool_decide.
  - destruct (completed_shown (points, meta) p) as (f & _ & ->).
    eexists. split; [done|]. split; [done|].
    cbn [shown frames set_current_frame completed set_loaded set_status_log set_frames stored].
    by rewrite payload_normalized, array_sort_perm, fmap_app.
  - eexists. split; [done|]. split; [done|].
    cbn [frames stored set_status_log set_frames]. by rewrite fmap_app.
Qed.

Lemma deliver_current results : ∀ p id,
  event_identifier p = id →
  deliver results p
    = deliver (filter (λ r, Meta.event_identifier r.2 = id) results) p ∧
  event_identifier (deliver results p) = id ∧
  Frame.payload <$> frames (deliver results p)
    ≡ₚ (Frame.payload <$> frames p)
       ++ (Frame.payload <$> (frame_of <$> filter (λ r, Meta.event_identifier r.2 = id) results)).
Proof.
  induction results as [|r results IH]; intros p id Hid.
  - simpl. by rewrite app_nil_r.
  - cbn [deliver foldl]. fold (deliver results (after (pointCloudLoaded r.1 r.2) p)).
    rewrite filter_cons. case_decide as Hr.
    + destruct (pointCloudLoaded_current r p) as (q & E & Hq & Hperm).
      { unfold current. apply bool_decide_eq_true_2. congruence. }
      unfold after. rewrite E. cbn [snd].
      destruct (IH q id) as (IH1 & IH2 & IH3); [congruence|].
      split_and!; [|done|].
      * cbn [deliver foldl]. unfold after. rewrite E. exact IH1.
      * rewrite IH3, Hperm, !fmap_cons, <- app_assoc. done.
    + unfold after. rewrite pointCloudLoaded_stale by congruence. by apply IH.
Qed.

(** C1.  A load result whose event identifier differs from the Player's
    is discarded: [pointCloudLoaded] returns without changing the state,
    and the event loop only forgets the request.  Hence a sequence of
    results leaves the Player exactly as the results of the current session
    alone would, and what the frames list holds afterwards is what it held
    before together with the results of the current session. *)
Theorem stale_results_are_discarded (p : Player) (results : list (Points * Meta.t)) :
  (∀ points meta,
     Meta.event_identifier meta ≠ event_identifier p →
     pointCloudLoaded points meta p = (Normal (), p)) ∧
  (∀ k points full_path name meta,
     requests p !! k = Some (full_path, name, meta) →
     Meta.event_identifier meta ≠ event_identifier p →
     step (EvLoadResolved k points) p = set_requests (delete k (requests p)) p) ∧
  deliver results p
    = deliver (filter (λ r, Meta.event_identifier r.2 = event_identifier p) results) p ∧
  Frame.payload <$> frames (deliver results p)
    ≡ₚ (Frame.payload <$> frames p)
       ++ (Frame.payload <$>
             (frame_of <$> filter (λ r, Meta.event_identifier r.2 = event_identifier p) results)).
Proof.
  split_and!.
  - intros points meta H. by apply pointCloudLoaded_stale.
  - intros k points full_path name meta Hk H. cbn [step]. rewrite Hk.
    unfold after. by rewrite pointCloudLoaded_stale.
  - by apply deliver_current.
  - by apply deliver_current.
Qed.

Lemma stale_results_are_discarded_witness :
  pointCloudLoaded 12%nat (single_meta demo_ready) demo_ready = (Normal (), demo_ready).
Proof.
  apply (proj1 (stale_results_are_discarded demo_ready [])). vm_compute. lia.
Defined.

(** ** Loading a scene *)

Lemma loadPointClouds_loop_issues name n ty pre : ∀ index p rest,
  forallb (has_cloud ty) pre = true →
  loadPointClouds_loop name n ty index (pre ++ rest) p
    = loadPointClouds_loop name n ty (index + length pre) rest (issued name n ty index pre p).
Proof.
  induction pre as [|frame pre IH]; intros index p rest Hpre.
  - unfold issued. simpl. rewrite Nat.add_0_r, !app_nil_r. by destruct p.
  - simpl in Hpre. apply andb_true_iff in Hpre as [Hframe Hpre].
    unfold has_cloud in Hframe. apply andb_true_iff in Hframe as [Hz Hc].
    apply negb_true_iff in Hz. apply bool_decide_eq_true_1 in Hc as [cloud Hc].
    cbn [app loadPointClouds_loop]. rewrite Hz.
    erewrite bind_normal by (rewrite Hc; reflexivity).
    erewrite bind_normal by reflexivity.
    erewrite bind_normal by reflexivity.
    erewrite bind_normal by reflexivity.
    rewrite IH by done.
    replace (S index + length pre)%nat with (index + length (frame :: pre))%nat
      by (simpl; lia).
    f_equal. unfold issued. cbn [scene_requests length replicate]. rewrite Hc.
    destruct p. simpl. by rewrite <- !app_assoc.
Qed.

Lemma loadPointClouds_issues name specs ty p :
  specs ≠ [] → forallb (has_cloud ty) specs = true →
  loadPointClouds name specs ty p
    = (Normal (),
       issued name (length specs) ty 0 specs
         (cleared (set_status_log (status_log p ++ ["Loading point clouds."]) p))).
Proof.
  intros Hne Hspecs. rewrite loadPointClouds_eq. cbv zeta.
  rewrite bool_decide_eq_false_2 by (by destruct specs).
  rewrite <- (app_nil_r specs) at 2.
  by rewrite loadPointClouds_loop_issues.
Qed.

Lemma loadPointClouds_loop_no_clouds_array name n ty index timestamp rest p :
  loadPointClouds_loop name n ty index (FrameSpec.mk timestamp (CloudsArray []) :: rest) p
    = (Normal (), set_status_log (status_log p ++ ["No clouds in frame."]) p).
Proof. done. Qed.

Lemma loadPointClouds_loop_no_clouds_object name n ty index timestamp rest p :
  loadPointClouds_loop name n ty index (FrameSpec.mk timestamp (CloudsObject []) :: rest) p
    = (TypeError, p).
Proof. done. Qed.

Lemma has_cloud_Some ty frame :
  has_cloud ty frame = true →
  zero_loose_eq (clouds_length (FrameSpec.clouds frame)) = false ∧
  ∃ cloud, clouds_get (FrameSpec.clouds frame) ty = Some cloud.
Proof.
  unfold has_cloud. intros [Hz Hc]%andb_true_iff.
  apply negb_true_iff in Hz. by apply bool_decide_eq_true_1 in Hc as [cloud Hc]; eauto.
Qed.

Lemma scene_requests_metas name n ty id specs : ∀ index,
  forallb (has_cloud ty) specs = true →
  length (scene_requests name n ty id index specs) = length specs ∧
  Forall (λ q, Meta.event_identifier q.2 = id ∧ Meta.num_frames q.2 = n)
         (scene_requests name n ty id index specs) ∧
  (λ q, Meta.timestamp q.2) <$> scene_requests name n ty id index specs
    = FrameSpec.timestamp <$> specs.
Proof.
  induction specs as [|frame specs IH]; intros index Hspecs; [done|].
  simpl in Hspecs. apply andb_true_iff in Hspecs as [Hframe Hspecs].
  apply has_cloud_Some in Hframe as (_ & cloud & Hc).
  destruct (IH (S index) Hspecs) as (IH1 & IH2 & IH3).
  cbn [scene_requests]. rewrite Hc. cbn [length fmap list_fmap].
  rewrite IH1. split; [done|]. split; [by constructor|].
  by rewrite <- IH3.
Qed.

(** Where [clouds] is an empty array, the zero test of the loop works: the
    status is reported after the loads of the frames before it, and nothing
    else is requested. *)
Lemma loadPointClouds_no_clouds_array name pre timestamp rest ty p :
  forallb (has_cloud ty) pre = true →
  ∃ q, loadPointClouds name (pre ++ FrameSpec.mk timestamp (CloudsArray []) :: rest) ty p
         = (Normal (), q) ∧
       last (status_log q) = Some "No clouds in frame." ∧
       length (requests q) = (length (requests p) + length pre)%nat ∧
       loaded q = false.
Proof.
  intros Hpre. rewrite loadPointClouds_eq. cbv zeta.
  rewrite bool_decide_eq_false_2 by (rewrite length_app; simpl; lia).
  rewrite loadPointClouds_loop_issues by done.
  rewrite loadPointClouds_loop_no_clouds_array.
  eexists. split; [done|]. cbn [status_log set_status_log].
  split; [by rewrite last_snoc|]. split; [|done].
  unfold issued. cbn [requests set_requests set_status_log cleared].
  rewrite length_app. f_equal. by apply scene_requests_metas.
Qed.

(** Where [clouds] is an empty object, the zero test does not fire and
    the loop ends in the [TypeError] of [cloud["path"]], after the loads of
    the frames before it and without a status text of its own. *)
Lemma loadPointClouds_no_clouds_object_later name pre timestamp rest ty p :
  forallb (has_cloud ty) pre = true →
  ∃ q, loadPointClouds name (pre ++ FrameSpec.mk timestamp (CloudsObject []) :: rest) ty p
         = (TypeError, q) ∧
       status_log q
         = status_log p ++ "Loading point clouds."
                           :: replicate (length pre) "Loading point clouds..." ∧
       length (requests q) = (length (requests p) + length pre)%nat ∧
       loaded q = false.
Proof.
  intros Hpre. rewrite loadPointClouds_eq. cbv zeta.
  rewrite bool_decide_eq_false_2 by (rewrite length_app; simpl; lia).
  rewrite loadPointClouds_loop_issues by done.
  rewrite loadPointClouds_loop_no_clouds_object.
  eexists. split; [done|]. unfold issued.
  cbn [status_log requests set_requests set_status_log cleared].
  split; [by rewrite <- app_assoc|]. split; [|done].
  rewrite length_app. f_equal. by apply scene_requests_metas.
Qed.


(** ** Completing a scene *)

Lemma stored_all_fields results : ∀ p,
  frames (stored_all results p) = frames p ++ (frame_of <$> results) ∧
  event_identifier (stored_all results p) = event_identifier p ∧
  loaded (stored_all results p) = loaded p ∧
  current_frame (stored_all results p) = current_frame p ∧
  scene (stored_all results p) = scene p ∧
  rendered (stored_all results p) = rendered p.
Proof.
  induction results as [|r results IH]; intros p.
  - simpl. by rewrite app_nil_r.
  - cbn [stored_all foldl]. fold (stored_all results (stored r p)).
    destruct (IH (stored r p)) as (-> & -> & -> & -> & -> & ->).
    cbn [stored frames set_status_log set_frames]. by rewrite <- app_assoc.
Qed.

Lemma deliver_partial n results : ∀ p,
  Forall (λ r, Meta.event_identifier r.2 = event_identifier p ∧ Meta.num_frames r.2 = n)
         results →
  (length (frames p) + length results < n)%nat →
  deliver results p = stored_all results p.
Proof.
  induction results as [|r results IH]; intros p Hall Hlen; [done|].
  apply Forall_cons_1 in Hall as [[Hid Hn] Hall]. simpl in Hlen.
  cbn [deliver stored_all foldl].
  fold (deliver results (after (pointCloudLoaded r.1 r.2) p)).
  fold (stored_all results (stored r p)).
  unfold after. rewrite pointCloudLoaded_eq. unfold current.
  rewrite bool_decide_eq_true_2 by done. cbn [negb].
  rewrite bool_decide_eq_false_2 by lia. destruct r as [points meta]. cbn [fst snd].
  apply IH.
  - done.
  - cbn [stored frames set_status_log set_frames]. rewrite length_app. simpl. lia.
Qed.

Lemma deliver_complete results p :
  frames p = [] → results ≠ [] → (length (scene p) ≤ 1)%nat →
  Forall (λ r, Meta.event_identifier r.2 = event_identifier p ∧
               Meta.num_frames r.2 = length results) results →
  ∃ f, frames (deliver results p)
         = normalized (array_sort compareByTimestamp (frame_of <$> results)) ∧
       frames (deliver results p) !! 0%nat = Some f ∧
       loaded (deliver results p) = true ∧
       current_frame (deliver results p) = Num 0 ∧
       scene (deliver results p) = [Frame.points f] ∧
       last (rendered (deliver results p)) = Some [Frame.points f].
Proof.
  intros Hfs Hne Hs Hall.
  destruct results as [|r init _] using rev_ind; [done|]. clear Hne.
  rewrite length_app, Nat.add_1_r in Hall.
  apply Forall_app in Hall as [Hinit Hr]. apply Forall_singleton in Hr as [Hid Hn].
  unfold deliver. rewrite foldl_app. cbn [foldl]. fold (deliver init p).
  rewrite (deliver_partial (S (length init))) by (rewrite ?Hfs; simpl; done || lia).
  destruct (stored_all_fields init p) as (Hf & He & _ & _ & Hsc & _).
  unfold after. rewrite pointCloudLoaded_eq. unfold current. cbn [fst snd].
  rewrite bool_decide_eq_true_2 by congruence. cbn [negb].
  rewrite bool_decide_eq_true_2 by (rewrite Hf, Hfs, app_nil_l, length_fmap; congruence).
  destruct (completed_shown (r.1, r.2) (stored_all init p)) as (f & Hf0 & ->).
  exists f. cbn [snd].
  assert (Hfr : frames (completed (r.1, r.2) (stored_all init p))
                = normalized (array_sort compareByTimestamp (frame_of <$> init ++ [r]))).
  { cbn [completed stored frames set_loaded set_current_frame set_status_log set_frames].
    rewrite Hf, Hfs, fmap_app. by destruct r. }
  split; [exact Hfr|]. split; [exact Hf0|]. split; [done|]. split; [done|].
  assert (Hscene : scene (shown f (set_current_frame (Num 0)
                     (completed (r.1, r.2) (stored_all init p)))) = [Frame.points f]).
  { apply scene_shown. cbn [scene set_current_frame completed set_loaded set_status_log
      set_frames stored]. by rewrite Hsc. }
  split; [exact Hscene|].
  cbn [rendered shown]. rewrite last_snoc. f_equal. exact Hscene.
Qed.

Lemma sorted_head_least fs :
  numeric_timestamps fs = true → fs ≠ [] →
  ∃ h, array_sort compareByTimestamp fs !! 0%nat = Some h ∧ h ∈ fs ∧
       ∀ x, x ∈ fs → num_le (Frame.timestamp h) (Frame.timestamp x).
Proof.
  intros Hnum Hne.
  pose proof (array_sort_ascending fs Hnum) as Hasc.
  pose proof (array_sort_perm compareByTimestamp fs) as Hperm.
  apply numeric_timestamps_Forall in Hnum.
  destruct (array_sort compareByTimestamp fs) as [|h t] eqn:E.
  { apply Permutation_nil_l in Hperm. by subst. }
  exists h. split; [done|]. split; [rewrite <- Hperm; left|].
  intros x Hx. rewrite <- Hperm in Hx. unfold ascending in Hasc. simpl in Hasc.
  apply StronglySorted_inv in Hasc as [_ Hall].
  apply elem_of_cons in Hx as [->|Hx].
  - rewrite <- Hperm in Hnum. apply Forall_cons_1 in Hnum as [[z ->] _]. simpl. lia.
  - rewrite Forall_forall in Hall. apply Hall. by apply list_elem_of_fmap_2.
Qed.

Lemma normalized_head_points fs f h :
  normalized fs !! 0%nat = Some f → fs !! 0%nat = Some h →
  Frame.points f = Frame.points h.
Proof.
  intros Hf Hh. pose proof (points_normalized fs) as E.
  apply (f_equal (λ l, l !! 0%nat)) in E.
  rewrite !list_lookup_fmap, Hf, Hh in E. by injection E.
Qed.

(** C5.  In a state the event loop reaches, [loadPointClouds] on N ≥ 1
    frame descriptions that all have a cloud of the selected type completes
    and issues N requests, each tagged with the new event identifier and
    with N as the number of frames.  Once the results of these requests
    have been delivered, in any order and with results of other sessions in
    between, [loaded] is true, [frames] holds N frames, the current frame
    is 0 and the frame at index 0 is the one in the scene and the one drawn
    last.  With numeric timestamps the frames are in ascending order, and
    the frame shown is a delivered one of least timestamp. *)
Theorem scene_load_completes (p : Player) (name : string) (specs : list FrameSpec.t)
    (type_identifier : string) :
  reachable p → specs ≠ [] → forallb (has_cloud type_identifier) specs = true →
  ∃ p1 reqs,
    loadPointClouds name specs type_identifier p = (Normal (), p1) ∧
    requests p1 = requests p ++ reqs ∧
    length reqs = length specs ∧
    (λ q, Meta.timestamp q.2) <$> reqs = FrameSpec.timestamp <$> specs ∧
    Forall (λ q, Meta.event_identifier q.2 = event_identifier p1 ∧
                 Meta.num_frames q.2 = length specs) reqs ∧
    loaded p1 = false ∧
    ∀ results : list (Points * Meta.t),
      (λ r, r.2) <$> filter (λ r, Meta.event_identifier r.2 = event_identifier p1) results
        ≡ₚ (λ q, q.2) <$> reqs →
      loaded (deliver results p1) = true ∧
      length (frames (deliver results p1)) = length specs ∧
      current_frame (deliver results p1) = Num 0 ∧
      ∃ f, frames (deliver results p1) !! 0%nat = Some f ∧
           scene (deliver results p1) = [Frame.points f] ∧
           last (rendered (deliver results p1)) = Some [Frame.points f] ∧
           (forallb (λ s, is_number (FrameSpec.timestamp s)) specs = true →
              ascending (frames (deliver results p1)) ∧
              Frame.timestamp f = Num 0 ∧
              ∃ r, r ∈ results ∧
                   Meta.event_identifier r.2 = event_identifier p1 ∧
                   r.1 = Frame.points f ∧
                   ∀ r', r' ∈ results →
                         Meta.event_identifier r'.2 = event_identifier p1 →
                         num_le (Meta.timestamp r.2) (Meta.timestamp r'.2)).
Proof.
  intros Hr%reachable_ready Hne Hspecs.
  set (p0 := cleared (set_status_log (status_log p ++ ["Loading point clouds."]) p)).
  set (reqs := scene_requests name (length specs) type_identifier
                 (event_identifier p0) 0 specs).
  exists (issued name (length specs) type_identifier 0 specs p0), reqs.
  destruct (scene_requests_metas name (length specs) type_identifier
              (event_identifier p0) specs 0%nat Hspecs) as (Hlen & Hmeta & Hts).
  split; [by apply loadPointClouds_issues|].
  split; [done|]. split; [done|]. split; [done|]. split; [done|]. split; [done|].
  set (p1 := issued name (length specs) type_identifier 0 specs p0).
  intros results Hperm.
  destruct (deliver_current results p1 (event_identifier p1) eq_refl) as (-> & _ & _).
  set (cur := filter (λ r, Meta.event_identifier r.2 = event_identifier p1) results) in *.
  assert (Hcurlen : length cur = length specs).
  { apply Permutation_length in Hperm. rewrite !length_fmap in Hperm. fold reqs in Hlen.
    congruence. }
  assert (Hcur : Forall (λ r, Meta.event_identifier r.2 = event_identifier p1 ∧
                              Meta.num_frames r.2 = length cur) cur).
  { rewrite Hcurlen.
    apply (Forall_fmap (λ r, r.2)
             (λ m, Meta.event_identifier m = event_identifier p1 ∧
                   Meta.num_frames m = length specs)).
    rewrite Hperm. by apply Forall_fmap. }
  destruct (deliver_complete cur p1) as (f & Hfs & Hf & Hl & Hc & Hsc & Hrd);
    [done | by intros E; rewrite E in Hcurlen; destruct specs | | exact Hcur |].
  { destruct Hr as (_ & _ & Hs). change (scene p1) with (tail (scene p)).
    destruct (scene p); simpl in *; lia. }
  split; [done|].
  split; [by rewrite Hfs, length_normalized, length_array_sort, length_fmap|].
  split; [done|]. exists f. split; [done|]. split; [done|]. split; [done|].
  intros Hnum.
  assert (Hnumcur : numeric_timestamps (frame_of <$> cur) = true).
  { apply numeric_timestamps_Forall. apply Forall_fmap.
    apply (Forall_fmap (λ r, Meta.timestamp r.2) (λ t, ∃ z, t = Num z)).
    assert (Meta.timestamp <$> ((λ r : Points * Meta.t, r.2) <$> cur)
            ≡ₚ FrameSpec.timestamp <$> specs) as E.
    { rewrite Hperm, <- Hts, <- list_fmap_compose. done. }
    rewrite <- list_fmap_compose in E. rewrite E. apply Forall_fmap.
    apply Forall_forall. intros s Hs. apply list_elem_of_In in Hs.
    rewrite forallb_forall in Hnum. specialize (Hnum s Hs). simpl.
    destruct (FrameSpec.timestamp s); try done. by eexists. }
  assert (Hsorted : numeric_timestamps (array_sort compareByTimestamp (frame_of <$> cur)) = true).
  { apply numeric_timestamps_Forall. rewrite array_sort_perm.
    by apply numeric_timestamps_Forall. }
  split; [rewrite Hfs; by apply ascending_normalized, array_sort_ascending|].
  destruct (sorted_head_least (frame_of <$> cur) Hnumcur) as (h & Hh & Hin & Hleast).
  { intros E. apply (f_equal length) in E. rewrite length_fmap, Hcurlen in E.
    by destruct specs. }
  split.
  { rewrite Hfs in Hf.
    destruct (array_sort compareByTimestamp (frame_of <$> cur)) as [|h0 t] eqn:Es; [done|].
    apply numeric_timestamps_Forall, Forall_cons_1 in Hsorted as [[z Hz] _].
    destruct (head_normalized h0 t z Hz) as (f' & Hf' & Hz'). congruence. }
  apply list_elem_of_fmap in Hin as (r & -> & Hrin).
  exists r. apply list_elem_of_filter in Hrin as [Hrid Hrin].
  split; [done|]. split; [done|].
  split.
  { rewrite Hfs in Hf. symmetry. apply (normalized_head_points _ _ _ Hf Hh). }
  intros r' Hr' Hid'.
  apply (Hleast (frame_of r')). apply list_elem_of_fmap_2.
  by apply list_elem_of_filter.
Qed.

Lemma scene_load_completes_witness :
  ∃ p1, loadPointClouds "s" demo_scene "color" (constructor false) = (Normal (), p1) ∧
        length (requests p1) = 2%nat ∧
        ∀ m0 m1, (λ q, q.2) <$> requests p1 = [m0; m1] →
          loaded (deliver [(11%nat, m1); (10%nat, m0)] p1) = true ∧
          length (frames (deliver [(11%nat, m1); (10%nat, m0)] p1)) = 2%nat ∧
          current_frame (deliver [(11%nat, m1); (10%nat, m0)] p1) = Num 0.
Proof.
  destruct (scene_load_completes (constructor false) "s" demo_scene "color")
    as (p1 & reqs & E & Hreq & Hlen & _ & Hall & _ & Hdone).
  { exists false, []. reflexivity. }
  { done. }
  { reflexivity. }
  exists p1. split; [exact E|]. simpl in Hreq. rewrite Hreq.
  split; [exact Hlen|]. intros m0 m1 Hm.
  destruct (Hdone [(11%nat, m1); (10%nat, m0)]) as (Hl & Hn & Hc & _).
  - rewrite Hm.
    assert (Forall (λ m, Meta.event_identifier m = event_identifier p1 ∧
                         Meta.num_frames m = length demo_scene) [m0; m1]) as Hms.
    { rewrite <- Hm. apply Forall_fmap. exact Hall. }
    apply Forall_cons_1 in Hms as [[H0 _] Hms].
    apply Forall_cons_1 in Hms as [[H1 _] _].
    rewrite !filter_cons, filter_nil. cbn [snd].
    rewrite !decide_True by done. apply Permutation_swap.
  - split; [exact Hl|]. split; [exact Hn|exact Hc].
Defined.

(** ** A single point cloud *)

(** C10.  After [loadSinglePointCloud] in a state the event loop reaches,
    the one request in flight carries the new event identifier and no
    timestamp, path or scene.  When it is delivered next, the Player is
    loaded with exactly one frame, shown at index 0 with duration 1; the
    frame's timestamp is [NaN] ([undefined - undefined]) and its path and
    scene are [undefined].  Results of earlier sessions that arrive before
    or after it change nothing of this. *)
Theorem single_point_cloud_loaded (p : Player) (full_path : string) (points : Points) :
  reachable p →
  ∃ p1, loadSinglePointCloud full_path p = (Normal (), p1) ∧
        requests p1 = requests p ++ [(full_path, POINT_CLOUD_NAME, single_meta p)] ∧
        Meta.event_identifier (single_meta p) = event_identifier p1 ∧
        Meta.timestamp (single_meta p) = Undefined ∧
        loaded p1 = false ∧
        let p2 := step (EvLoadResolved (length (requests p)) points) p1 in
        loaded p2 = true ∧
        frames p2 = [ {| Frame.timestamp := NaN;
                         Frame.path := None;
                         Frame.scene := None;
                         Frame.points := points;
                         Frame.duration := Num 1 |} ] ∧
        current_frame p2 = Num 0 ∧
        scene p2 = [points] ∧
        last (rendered p2) = Some [points] ∧
        last (status_log p2) = Some "Frame 1 of 1." ∧
        requests p2 = requests p ∧
        ∀ results : list (Points * Meta.t),
          filter (λ r, Meta.event_identifier r.2 = event_identifier p1) results
            = [(points, single_meta p)] →
          loaded (deliver results p1) = true ∧
          frames (deliver results p1) = frames p2 ∧
          current_frame (deliver results p1) = Num 0 ∧
          scene (deliver results p1) = [points].
Proof.
  intros (_ & _ & Hs)%reachable_ready.
  eexists. split; [apply loadSinglePointCloud_eq|].
  split; [done|]. split; [done|]. split; [done|]. split; [done|].
  cbv zeta. cbn [step requests set_requests].
  rewrite list_lookup_middle by done.
  unfold after. rewrite pointCloudLoaded_eq.
  unfold current. cbn [snd event_identifier set_requests cleared single_meta
    Meta.event_identifier Meta.num_frames frames length negb].
  rewrite !bool_decide_eq_true_2 by done. cbn [negb].
  match goal with |- context [nextFrame (completed ?r ?q)] =>
    destruct (completed_shown r q) as (f & Hf & ->) end.
  cbn in Hf. injection Hf as <-.
  cbn [snd shown loaded frames current_frame set_current_frame completed set_loaded
    set_status_log set_frames stored status_log rendered requests].
  split; [done|]. split; [reflexivity|]. split; [done|].
  assert (Hd : filter (λ q : Points, q ≠ points) (tail (tail (scene p))) ++ [points]
               = [points]).
  { destruct (scene p) as [|x [|y s]]; simpl in *; done || lia. }
  split; [exact Hd|]. split; [rewrite last_snoc; f_equal; exact Hd|].
  split; [by rewrite last_snoc|].
  split; [by rewrite delete_middle, app_nil_r|].
  intros results Hres.
  match goal with |- context [deliver results ?q] => set (p1 := q) end.
  destruct (deliver_current results p1 (S (event_identifier p)) eq_refl) as (-> & _ & _).
  rewrite Hres.
  destruct (deliver_complete [(points, single_meta p)] p1) as (f & Hfs & Hf & Hl & Hc & Hsc & _);
    [done | done | | by repeat constructor |].
  { change (scene p1) with (tail (scene p)). destruct (scene p); simpl in *; lia. }
  rewrite Hfs in Hf. cbn in Hf. injection Hf as <-.
  split; [exact Hl|]. split; [exact Hfs|]. split; [exact Hc|exact Hsc].
Qed.

Lemma single_point_cloud_loaded_witness :
  ∃ p1, loadSinglePointCloud "pointclouds/wiesenhagen/image.pcd" (constructor false)
          = (Normal (), p1) ∧
        frames (step (EvLoadResolved 0 7%nat) p1) = [Frame.mk NaN None None 7%nat (Num 1)] ∧
        current_frame (step (EvLoadResolved 0 7%nat) p1) = Num 0.
Proof.
  destruct (single_point_cloud_loaded (constructor false)
              "pointclouds/wiesenhagen/image.pcd" 7%nat)
    as (p1 & E & _ & _ & _ & _ & _ & Hf & Hc & _).
  { exists false, []. reflexivity. }
  exists p1. split; [exact E|]. split; [exact Hf|exact Hc].
Defined.

(** * Further properties *)

(** ** The order of the frames *)

Lemma sort_insert_same_timestamp t x l :
  filter (λ f, Frame.timestamp f = t) (sort_insert compareByTimestamp x l)
    = filter (λ f, Frame.timestamp f = t) (x :: l).
Proof.
  induction l as [|y l IH]; [done|].
  cbn [sort_insert]. case_decide as Hc; [|done].
  rewrite filter_cons, IH, !filter_cons.
  assert (Frame.timestamp x ≠ Frame.timestamp y) as Hne.
  { unfold compareByTimestamp in Hc. intros E. rewrite E in Hc.
    destruct (js_lt (Frame.timestamp y) (Frame.timestamp y)) eqn:Hlt; [|lia].
    unfold js_lt in Hlt.
    destruct (Frame.timestamp y); try done; apply bool_decide_eq_true_1 in Hlt; lia. }
  repeat case_decide; congruence.
Qed.

Lemma array_sort_same_timestamp t l :
  filter (λ f, Frame.timestamp f = t) (array_sort compareByTimestamp l)
    = filter (λ f, Frame.timestamp f = t) l.
Proof.
  induction l as [|x l IH]; [done|].
  cbn [array_sort]. rewrite sort_insert_same_timestamp, !filter_cons, IH. done.
Qed.

(** X1.  [normalizeFrames] only reorders the frames and rewrites their
    times.  With numeric timestamps the path, scene and points of the
    frames afterwards are those of the frames before, arranged by ascending
    timestamp, the frames of one timestamp in the order they arrived in. *)
Theorem normalizeFrames_keeps_frames (p : Player) :
  numeric_timestamps (frames p) = true →
  Frame.payload <$> frames (after normalizeFrames p) ≡ₚ Frame.payload <$> frames p ∧
  ∃ sorted,
    Frame.payload <$> frames (after normalizeFrames p) = Frame.payload <$> sorted ∧
    sorted ≡ₚ frames p ∧
    ascending sorted ∧
    ∀ t, filter (λ f, Frame.timestamp f = t) sorted
         = filter (λ f, Frame.timestamp f = t) (frames p).
Proof.
  intros Hnum.
  assert (E : Frame.payload <$> frames (after normalizeFrames p)
              = Frame.payload <$> array_sort compareByTimestamp (frames p)).
  { unfold after. rewrite normalizeFrames_eq. apply payload_normalized. }
  split.
  - rewrite E. by rewrite array_sort_perm.
  - exists (array_sort compareByTimestamp (frames p)).
    split; [exact E|]. split; [apply array_sort_perm|].
    split; [by apply array_sort_ascending|].
    intros t. apply array_sort_same_timestamp.
Qed.

Lemma normalizeFrames_keeps_frames_witness :
  Frame.payload <$> frames (after normalizeFrames demo_unsorted)
    ≡ₚ Frame.payload <$> frames demo_unsorted.
Proof.
  destruct (normalizeFrames_keeps_frames demo_unsorted eq_refl) as [H _]. exact H.
Defined.

(** ** Times after normalisation *)








(** ** Normalisation as a function of the timestamps *)














Lemma array_sort_arrival_order fs1 fs2 :
  numeric_timestamps fs1 = true → NoDup (Frame.timestamp <$> fs1) → fs1 ≡ₚ fs2 →
  array_sort compareByTimestamp fs1 = array_sort compareByTimestamp fs2.
Proof.
  intros Hnum Hnd Hperm.
  assert (Hnum2 : numeric_timestamps fs2 = true).
  { apply numeric_timestamps_Forall. rewrite <- Hperm. by apply numeric_timestamps_Forall. }
  assert (∀ fs, numeric_timestamps fs = true →
            StronglySorted (λ a b, num_le (Frame.timestamp a) (Frame.timestamp b))
                           (array_sort compareByTimestamp fs)) as Hss.
  { intros fs H. pose proof (array_sort_ascending fs H) as Hasc. unfold ascending in Hasc.
    induction (array_sort compareByTimestamp fs) as [|a l IH]; [constructor|].
    simpl in Hasc. apply StronglySorted_inv in Hasc as [Hl Ha].
    constructor; [by apply IH|].
    exact (proj1 (Forall_fmap Frame.timestamp (num_le (Frame.timestamp a)) _) Ha). }
  apply (StronglySorted_unique_strong
           (λ a b, num_le (Frame.timestamp a) (Frame.timestamp b))); [|by auto..|].
  - intros x1 x2 Hx1 Hx2 H12 H21.
    rewrite array_sort_perm in Hx1. rewrite array_sort_perm, <- Hperm in Hx2.
    assert (Frame.timestamp x1 = Frame.timestamp x2) as E.
    { unfold num_le in *. destruct (Frame.timestamp x1), (Frame.timestamp x2); try done.
      f_equal. lia. }
    apply list_elem_of_lookup in Hx1 as [i Hi]. apply list_elem_of_lookup in Hx2 as [j Hj].
    assert (i = j) as ->.
    { eapply NoDup_lookup; [exact Hnd| |].
      - rewrite list_lookup_fmap, Hi. reflexivity.
      - rewrite list_lookup_fmap, Hj. simpl. by rewrite E. }
    congruence.
  - by rewrite !array_sort_perm.
Qed.

(** X5.  With distinct numeric timestamps the frames [normalizeFrames]
    leaves do not depend on the order in which the frames were stored. *)
Theorem normalizeFrames_arrival_order (p q : Player) :
  numeric_timestamps (frames p) = true →
  NoDup (Frame.timestamp <$> frames p) →
  frames p ≡ₚ frames q →
  frames (after normalizeFrames p) = frames (after normalizeFrames q).
Proof.
  intros Hnum Hnd Hperm. unfold after. rewrite !normalizeFrames_eq. cbn [snd frames set_frames].
  by rewrite (array_sort_arrival_order _ _ Hnum Hnd Hperm).
Qed.

Lemma normalizeFrames_arrival_order_witness :
  frames (after normalizeFrames demo_unsorted)
    = frames (after normalizeFrames (set_frames (reverse (frames demo_unsorted)) demo_unsorted)).
Proof.
  apply normalizeFrames_arrival_order.
  - reflexivity.
  - vm_compute. repeat (apply NoDup_cons_2 || apply NoDup_nil_2);
      rewrite ?elem_of_cons, ?elem_of_nil; intuition discriminate.
  - cbn [frames set_frames]. by rewrite reverse_Permutation.
Defined.

(** X6.  When the first frame has no numeric timestamp (it is missing, or
    not a number), [normalizeTimeStamps] loses all times: every timestamp
    becomes [NaN] and so does every duration but the last, which is 1. *)
Theorem normalizeTimeStamps_without_offset (p : Player) (f0 : Frame.t) (rest : list Frame.t) :
  frames p = f0 :: rest → is_number (Frame.timestamp f0) = false →
  (normalizeTimeStamps p).1 = Normal () ∧
  length (frames (after normalizeTimeStamps p)) = length (frames p) ∧
  Forall (λ f, Frame.timestamp f = NaN) (frames (after normalizeTimeStamps p)) ∧
  (∀ i f, (i < length rest)%nat → frames (after normalizeTimeStamps p) !! i = Some f →
          Frame.duration f = NaN) ∧
  (∀ f, frames (after normalizeTimeStamps p) !! length rest = Some f →
          Frame.duration f = Num 1).
Proof.
  intros Hfs Hnan. unfold after. rewrite normalizeTimeStamps_eq, Hfs.
  cbn [fst snd frames set_frames].
  assert (Hts : Forall (λ f, Frame.timestamp f = NaN) (normalized (f0 :: rest))).
  { apply (Forall_fmap Frame.timestamp (λ t, t = NaN)).
    rewrite timestamps_normalized. apply Forall_fmap, Forall_true.
    intros t. simpl. destruct t, (Frame.timestamp f0); done. }
  split; [done|]. split; [apply length_normalized|]. split; [exact Hts|]. split.
  - intros i f Hi Hf.
    destruct (lookup_lt_is_Some_2 (normalized (f0 :: rest)) (S i)) as [g Hg].
    { rewrite length_normalized. simpl. lia. }
    rewrite (duration_gap_normalized _ _ _ _ Hf Hg).
    rewrite Forall_lookup in Hts. by rewrite (Hts _ _ Hf), (Hts _ _ Hg).
  - intros f Hf. apply (duration_last_normalized (f0 :: rest)).
    simpl. by rewrite Nat.sub_0_r.
Qed.

Lemma normalizeTimeStamps_without_offset_witness :
  Forall (λ f, Frame.timestamp f = NaN)
    (frames (after normalizeTimeStamps
       (set_frames [Frame.mk Undefined None None 1%nat Undefined;
                    Frame.mk (Num 4) None None 2%nat Undefined] (constructor false)))).
Proof.
  by apply (normalizeTimeStamps_without_offset
              (set_frames [Frame.mk Undefined None None 1%nat Undefined;
                           Frame.mk (Num 4) None None 2%nat Undefined] (constructor false))
              (Frame.mk Undefined None None 1%nat Undefined)
              [Frame.mk (Num 4) None None 2%nat Undefined]).
Defined.

(** ** Sessions and what is on display *)

Lemma filter_delete_in {A : Type} (P : A → Prop) `{∀ x, Decision (P x)} (l : list A) k x :
  l !! k = Some x → P x → filter P l ≡ₚ x :: filter P (delete k l).
Proof.
  intros Hk HP. rewrite <- (take_drop_middle l k x Hk) at 1.
  rewrite delete_take_drop, !filter_app, filter_cons, decide_True by done.
  by rewrite Permutation_middle.
Qed.

Lemma filter_delete_out {A : Type} (P : A → Prop) `{∀ x, Decision (P x)} (l : list A) k x :
  l !! k = Some x → ¬ P x → filter P (delete k l) = filter P l.
Proof.
  intros Hk HP. rewrite <- (take_drop_middle l k x Hk) at 2.
  by rewrite delete_take_drop, !filter_app, filter_cons, decide_False.
Qed.

Lemma filter_delete_sub {A : Type} (P : A → Prop) `{∀ x, Decision (P x)} (l : list A) k :
  filter P (delete k l) ⊆+ filter P l.
Proof.
  destruct (l !! k) as [x|] eqn:Hk.
  - destruct (decide (P x)).
    + rewrite (filter_delete_in P l k x) by done. by apply submseteq_cons.
    + by rewrite (filter_delete_out P l k x).
  - apply lookup_ge_None in Hk.
    by rewrite delete_take_drop, take_ge, drop_ge, app_nil_r by lia.
Qed.

Lemma settled_same_view p q : same_view p q → settled p → settled q.
Proof.
  intros (Hid & Hl & Hf & Hc & Hcb & Hlog & Hsc & Hr & Hrc & Hq).
  unfold settled, ids_bounded, session_bounded, loaded_normalized, displayed,
    callbacks_counted, pending, frame_text.
  by rewrite Hid, Hl, Hf, Hc, Hcb, Hlog, Hsc, Hr, Hrc, Hq.
Qed.

Lemma ready_same_view p q : same_view p q → is_playing q = is_playing p → ready p → ready q.
Proof.
  intros (Hid & Hl & Hf & Hc & Hcb & Hlog & Hsc & Hr & Hrc & Hq) Hp.
  unfold ready, inv, index_in_range. by rewrite Hl, Hf, Hc, Hsc, Hp.
Qed.

Lemma settled_shown f q :
  js_index (frames q) (current_frame q) = Some f →
  (length (scene q) ≤ 1)%nat → loaded q = true →
  ids_bounded q → session_bounded q → loaded_normalized q → callbacks_counted q →
  settled (shown f q).
Proof.
  intros Hf Hs Hl Hids Hsess Hnorm Hcb.
  pose proof (scene_shown f q Hs) as Hscene.
  split_and!; [done|done|done| |].
  - split; [|intros H; cbn in H; congruence]. intros _. exists f.
    split; [done|]. split; [done|].
    split; [cbn [rendered shown]; rewrite last_snoc; f_equal; exact Hscene|].
    split; [cbn [status_log shown]; by rewrite last_snoc|].
    cbn [on_render_frame_callback render_callbacks shown]. intros ->.
    by rewrite last_snoc.
  - unfold callbacks_counted in *.
    cbn [on_render_frame_callback render_callbacks rendered shown].
    destruct (on_render_frame_callback q); [|done].
    rewrite !length_app. simpl. lia.
Qed.

Lemma settled_nextFrame p : ready p → settled p → settled (after nextFrame p).
Proof.
  intros Hr Hs. destruct (loaded p) eqn:Hl.
  - destruct (ready_index p Hr Hl) as (i & Hc & Hi).
    destruct (nextFrame_step p i Hl Hc Hi) as (f & Hf & E).
    unfold after. rewrite E. destruct Hs as (? & ? & ? & ? & ?).
    apply settled_shown; try done. apply Hr.
  - unfold after. by rewrite nextFrame_eq, Hl, orb_true_r.
Qed.

Lemma settled_previousFrame p : ready p → settled p → settled (after previousFrame p).
Proof.
  intros Hr Hs. destruct (loaded p) eqn:Hl.
  - destruct (ready_index p Hr Hl) as (i & Hc & Hi).
    destruct (previousFrame_step p i Hl Hc Hi) as (f & Hf & E).
    unfold after. rewrite E. destruct Hs as (? & ? & ? & ? & ?).
    apply settled_shown; try done. apply Hr.
  - unfold after. by rewrite previousFrame_eq, Hl, orb_true_r.
Qed.

Lemma pending_cleared p : ids_bounded p → pending (cleared p) = [].
Proof.
  unfold ids_bounded, pending. cbn [requests event_identifier cleared].
  induction 1 as [|q l Hq Hl IH]; [done|].
  rewrite filter_cons, decide_False by lia. done.
Qed.

Lemma settled_cleared_from p :
  (length (scene p) ≤ 1)%nat → ids_bounded p → callbacks_counted p → settled (cleared p).
Proof.
  intros Hsc Hids Hcb.
  split_and!.
  - unfold ids_bounded in *. cbn [requests event_identifier cleared].
    eapply Forall_impl; [exact Hids|]. intros q Hq. simpl in *. lia.
  - exists 0%nat. rewrite pending_cleared by done. by split_and!.
  - intros H. cbn in H. congruence.
  - split; [intros H; cbn in H; congruence|]. intros _. cbn [scene cleared].
    destruct (scene p) as [|x [|y s]]; simpl in *; done || lia.
  - done.
Qed.

Lemma settled_cleared p : ready p → settled p → settled (cleared p).
Proof.
  intros (_ & _ & Hsc) (Hids & _ & _ & _ & Hcb). by apply settled_cleared_from.
Qed.

Lemma settled_issued q extra log n :
  settled q → loaded q = false → frames q = [] → pending q = [] →
  Forall (λ r, Meta.event_identifier r.2 = event_identifier q ∧ Meta.num_frames r.2 = n)
         extra →
  (length extra ≤ n)%nat →
  settled (set_requests (requests q ++ extra) (set_status_log log q)).
Proof.
  intros (Hids & _ & _ & (_ & Hsc) & Hcb) Hl Hf Hp Hextra Hlen.
  assert (Hfilter : filter (λ r : string * string * Meta.t,
                              Meta.event_identifier r.2 = event_identifier q) extra = extra).
  { clear Hlen. induction Hextra as [|r l [Hr _] _ IH]; [done|].
    by rewrite filter_cons, decide_True, IH. }
  split_and!.
  - unfold ids_bounded in *. cbn [requests event_identifier set_requests set_status_log].
    apply Forall_app. split; [done|].
    eapply Forall_impl; [exact Hextra|]. intros r [Hr _]. simpl in *. lia.
  - exists n. unfold pending in *.
    cbn [requests event_identifier frames loaded set_requests set_status_log].
    rewrite filter_app, Hp, Hfilter, Hf, Hl. simpl. split_and!; [|lia|done].
    eapply Forall_impl; [exact Hextra|]. by intros r [_ Hr].
  - intros H. cbn in H. congruence.
  - split; [intros H; cbn in H; congruence|]. intros _. by apply Hsc.
  - done.
Qed.

Lemma settled_delete p k : settled p → settled (set_requests (delete k (requests p)) p).
Proof.
  intros (Hids & (n & Hn & Hlen & Hln) & Hnorm & Hd & Hcb).
  split_and!; [|exists n|done|done|done].
  - by apply Forall_delete.
  - unfold pending in *. cbn [requests event_identifier frames loaded set_requests].
    pose proof (filter_delete_sub
      (λ q : string * string * Meta.t, Meta.event_identifier q.2 = event_identifier p)
      (requests p) k) as Hsub.
    split_and!; [|apply submseteq_length in Hsub; lia|done].
    rewrite Forall_forall in Hn |- *. intros x Hx. apply Hn.
    by eapply elem_of_submseteq.
Qed.

Lemma settled_resolved p k full_path name meta points :
  ready p → settled p → requests p !! k = Some (full_path, name, meta) →
  settled (after (pointCloudLoaded points meta) (set_requests (delete k (requests p)) p)).
Proof.
  intros Hr Hs Hk.
  pose proof (settled_delete p k Hs) as Hs'.
  set (p' := set_requests (delete k (requests p)) p) in *.
  unfold after. rewrite pointCloudLoaded_eq. unfold current. cbn [snd].
  case_bool_decide as Hid; cbn [negb]; [|done].
  change (event_identifier p') with (event_identifier p) in Hid.
  destruct Hs as (Hids & (n & Hn & Hlen & Hln) & Hnorm & (Hshow & Hhide) & Hcb).
  pose proof (filter_delete_in
    (λ q : string * string * Meta.t, Meta.event_identifier q.2 = event_identifier p)
    (requests p) k _ Hk (eq_sym Hid)) as Hperm.
  fold (pending p) in Hperm.
  assert (Hmeta : Meta.num_frames meta = n).
  { rewrite Forall_forall in Hn. apply (Hn (full_path, name, meta)).
    rewrite Hperm. left. }
  assert (Hplen : length (pending p) = S (length (pending p'))).
  { apply Permutation_length in Hperm. exact Hperm. }
  assert (Hl : loaded p = false).
  { destruct (loaded p); [|done]. specialize (Hln eq_refl). lia. }
  destruct Hs' as (Hids' & _ & _ & _ & Hcb').
  assert (Hn' : Forall (λ q : string * string * Meta.t, Meta.num_frames q.2 = n) (pending p')).
  { rewrite Forall_forall in Hn |- *. intros x Hx. apply Hn. rewrite Hperm. by right. }
  change (frames p') with (frames p). rewrite Hmeta.
  case_bool_decide as Hfull.
  - destruct (completed_shown (points, meta) p') as (f & Hf0 & ->). cbn [snd].
    apply settled_shown.
    + done.
    + change (scene (set_current_frame (Num 0) (completed (points, meta) p')))
        with (scene p). rewrite (Hhide Hl). simpl. lia.
    + done.
    + exact Hids'.
    + exists n. change (pending (set_current_frame (Num 0) (completed (points, meta) p')))
        with (pending p').
      split; [done|].
      change (frames (set_current_frame (Num 0) (completed (points, meta) p')))
        with (frames (completed (points, meta) p')).
      rewrite length_completed. change (frames p') with (frames p).
      split; [lia|done].
    + intros _. exists (frames p ++ [frame_of (points, meta)]). split; [|done].
      intros E. by apply app_nil in E as [_ ?].
    + exact Hcb'.
  - cbn [snd]. split_and!.
    + exact Hids'.
    + exists n. change (pending (stored (points, meta) p')) with (pending p').
      change (frames (stored (points, meta) p')) with (frames p ++ [frame_of (points, meta)]).
      change (loaded (stored (points, meta) p')) with (loaded p).
      rewrite length_app. simpl. split; [done|]. split; [lia|]. by rewrite Hl.
    + intros H. cbn in H. congruence.
    + split; [intros H; cbn in H; congruence|]. intros _. by apply Hhide.
    + exact Hcb'.
Qed.

Lemma loadPointClouds_loop_effect name n ty rest : ∀ index p,
  ∃ extra log,
    after (loadPointClouds_loop name n ty index rest) p
      = set_requests (requests p ++ extra) (set_status_log (status_log p ++ log) p) ∧
    Forall (λ r, Meta.event_identifier r.2 = event_identifier p ∧ Meta.num_frames r.2 = n)
           extra ∧
    (length extra ≤ length rest)%nat.
Proof.
  induction rest as [|frame rest IH]; intros index p.
  - exists [], []. split; [|by split; [constructor|]].
    unfold after. simpl. rewrite !app_nil_r. by destruct p.
  - unfold after. cbn [loadPointClouds_loop]. destruct (zero_loose_eq _).
    { exists [], ["No clouds in frame."]. split; [|by split; [constructor|simpl; lia]].
      simpl. rewrite app_nil_r. by destruct p. }
    unfold mbind at 1. unfold M_bind at 1.
    destruct (clouds_get _ _) as [cloud|]; cbn [deref mret M_ret throw].
    + erewrite bind_normal by reflexivity.
      erewrite bind_normal by reflexivity.
      erewrite bind_normal by reflexivity.
      match goal with |- context [loadPointClouds_loop _ _ _ _ _ ?q] =>
        destruct (IH (S index) q) as (extra & log & E & Hextra & Hlen) end.
      unfold after in E. rewrite E.
      exists (("pointclouds/" +:+ js_string_or_undefined (Cloud.path cloud),
               POINT_CLOUD_NAME,
               {| Meta.event_identifier := event_identifier p;
                  Meta.scene := Some name;
                  Meta.index := Some index;
                  Meta.num_frames := n;
                  Meta.timestamp := FrameSpec.timestamp frame;
                  Meta.path := Cloud.path cloud |}) :: extra),
             ("Loading point clouds..." :: log).
      split; [destruct p; simpl; by rewrite <- !app_assoc|].
      split; [constructor; [done|exact Hextra]|simpl; lia].
    + exists [], []. split; [|by split; [constructor|simpl; lia]].
      simpl. rewrite !app_nil_r. by destruct p.
Qed.

Lemma settled_loadPointClouds name specs ty p :
  ready p → settled p → settled (after (loadPointClouds name specs ty) p).
Proof.
  intros Hr Hs.
  set (q := cleared (set_status_log (status_log p ++ ["Loading point clouds."]) p)).
  assert (Hq : settled q).
  { apply settled_cleared_from; [apply Hr|apply Hs|apply Hs]. }
  assert (Hpq : pending q = []) by (apply (pending_cleared p), Hs).
  unfold after. rewrite loadPointClouds_eq. cbv zeta. fold q.
  case_bool_decide.
  - apply (settled_same_view (set_requests (requests q ++ [])
             (set_status_log (status_log q ++ ["No frames in scene."]) q))).
    { unfold same_view. cbn. by rewrite app_nil_r. }
    by apply (settled_issued q [] _ 0%nat).
  - destruct (loadPointClouds_loop_effect name (length specs) ty specs 0%nat q)
      as (extra & log & E & Hextra & Hlen).
    unfold after in E. rewrite E. by apply (settled_issued q extra _ (length specs)).
Qed.

Lemma settled_playNextFrameCallback p :
  ready p → settled p → settled (after playNextFrameCallback p).
Proof.
  intros Hr Hs. unfold after. rewrite playNextFrameCallback_eq.
  destruct (negb _); [done|].
  pose proof (settled_nextFrame p Hr Hs) as Hn. unfold after in Hn.
  unfold mbind, M_bind. destruct (nextFrame p) as [[[]|] q]; [|done].
  unfold createNextFrameTimer, mbind, M_bind, get. simpl.
  destruct (js_index _ _); done.
Qed.

Lemma settled_step ev p : ready p → settled p → settled (step ev p).
Proof.
  intros Hr Hs. destruct ev; cbn [step].
  - by apply settled_loadPointClouds.
  - unfold after. rewrite loadSinglePointCloud_eq.
    apply (settled_same_view
             (set_requests (requests (cleared p) ++ [(full_path, POINT_CLOUD_NAME, single_meta p)])
                (set_status_log (status_log (cleared p)) (cleared p)))); [done|].
    apply (settled_issued (cleared p) _ _ 1%nat).
    + by apply settled_cleared.
    + done.
    + done.
    + apply pending_cleared, Hs.
    + by repeat constructor.
    + simpl. lia.
  - unfold after. rewrite reset_eq. by apply settled_cleared.
  - unfold after. rewrite play_eq.
    case_bool_decide; [done|]. destruct (negb _); [done|].
    destruct (is_playing p); [done|]. by destruct (js_index _ _).
  - done.
  - by apply settled_nextFrame.
  - by apply settled_previousFrame.
  - destruct (requests p !! k) as [[[full_path name] meta]|] eqn:Hk; [|done].
    by eapply settled_resolved.
  - by apply settled_delete.
  - destruct (timers p !! k); [|done].
    by apply settled_playNextFrameCallback.
Qed.

Lemma settled_constructor cb : settled (constructor cb).
Proof.
  split_and!.
  - constructor.
  - exists 0%nat. by split; [constructor|].
  - done.
  - done.
  - unfold callbacks_counted. by destruct cb.
Qed.

Lemma reachable_settled p : reachable p → settled p.
Proof.
  intros (cb & evs & ->).
  assert (∀ q, ready q → settled q → ready (run evs q) ∧ settled (run evs q)) as H.
  { induction evs as [|ev evs IH]; intros q Hr Hs; [done|].
    cbn [run foldl]. apply IH; [by apply ready_step|by apply settled_step]. }
  apply H; [apply ready_constructor|apply settled_constructor].
Qed.

Lemma deliver_stale results p :
  Forall (λ r, Meta.event_identifier r.2 ≠ event_identifier p) results →
  deliver results p = p.
Proof.
  induction 1 as [|r results Hr _ IH]; [done|].
  unfold deliver in *. cbn [foldl].
  replace (after (pointCloudLoaded r.1 r.2) p) with p; [done|].
  unfold after. by rewrite pointCloudLoaded_stale.
Qed.

Lemma step_new_session ev p :
  new_session ev = true → event_identifier (step ev p) = S (event_identifier p).
Proof.
  destruct ev; try done; intros _; cbn [step].
  by destruct (loadPointClouds_core name frames0 type_identifier p) as (-> & _).
Qed.

(** X7.  In every state the event loop reaches no request in flight is
    newer than the Player's session.  A reset or a new load therefore
    leaves every request that was in flight behind: whichever of their
    results arrive afterwards, the Player stays as it is. *)
Theorem outstanding_results_become_stale (p : Player) (ev : event) :
  reachable p → new_session ev = true →
  ids_bounded p ∧
  Forall (λ q, (Meta.event_identifier q.2 < event_identifier (step ev p))%nat) (requests p) ∧
  ∀ results : list (Points * Meta.t),
    Forall (λ r, r.2 ∈ (λ q, q.2) <$> requests p) results →
    deliver results (step ev p) = step ev p.
Proof.
  intros Hr Hev. destruct (reachable_settled p Hr) as (Hids & _).
  assert (Hold : Forall (λ q : string * string * Meta.t,
             (Meta.event_identifier q.2 < event_identifier (step ev p))%nat) (requests p)).
  { rewrite step_new_session by done. eapply Forall_impl; [exact Hids|].
    intros q Hq. simpl in *. lia. }
  split; [done|]. split; [done|].
  intros results Hres. apply deliver_stale.
  eapply Forall_impl; [exact Hres|]. intros r Hin.
  apply list_elem_of_fmap in Hin as (q & -> & Hq).
  rewrite Forall_forall in Hold. specialize (Hold q Hq). simpl in *. lia.
Qed.

Lemma outstanding_results_become_stale_witness :
  deliver [(42%nat, single_meta (constructor false))]
    (step EvReset (step (EvLoadSinglePointCloud "a.pcd") (constructor false)))
  = step EvReset (step (EvLoadSinglePointCloud "a.pcd") (constructor false)).
Proof.
  apply (outstanding_results_become_stale
           (step (EvLoadSinglePointCloud "a.pcd") (constructor false)) EvReset).
  - by exists false, [EvLoadSinglePointCloud "a.pcd"].
  - reflexivity.
  - repeat constructor.
Defined.




(** X9.  In every state the event loop reaches, a loaded Player shows
    exactly its current frame: the scene holds the points of
    [frames[current_frame]], that was the scene drawn last, and the last
    status text is "Frame i+1 of N.".  While no scene is loaded the scene
    holds no point cloud. *)
Theorem display_follows_current_frame (p : Player) :
  reachable p →
  (loaded p = true →
     ∃ f, js_index (frames p) (current_frame p) = Some f ∧
          scene p = [Frame.points f] ∧
          last (rendered p) = Some [Frame.points f] ∧
          last (status_log p) = Some (frame_text p)) ∧
  (loaded p = false → scene p = []).
Proof.
  intros Hr. destruct (reachable_settled p Hr) as (_ & _ & _ & (Hshow & Hhide) & _).
  split; [|done]. intros Hl. destruct (Hshow Hl) as (f & ? & ? & ? & ? & _). by exists f.
Qed.

Lemma display_follows_current_frame_witness :
  scene (step EvNextFrame demo_ready) = [10%nat] ∧
  last (status_log (step EvNextFrame demo_ready)) = Some "Frame 2 of 2.".
Proof.
  destruct (display_follows_current_frame (step EvNextFrame demo_ready))
    as [Hshow _]; [by exists false, (demo_loading ++ [EvNextFrame])|].
  destruct (Hshow eq_refl) as (f & Hf & Hs & _ & Ht).
  vm_compute in Hf. injection Hf as <-. split; [exact Hs|exact Ht].
Defined.










(** ** Sessions that cannot complete *)

Lemma starved_step ev p :
  new_session ev = false → starved p → starved (step ev p).
Proof.
  intros Hev (Hl & n & Hn & Hlen). destruct ev; try done; cbn [step].
  - unfold after. rewrite play_eq, Hl. case_bool_decide; [|simpl]; by split; [|exists n].
  - by split; [|exists n].
  - unfold after. rewrite nextFrame_eq, Hl, orb_true_r. by split; [|exists n].
  - unfold after. rewrite previousFrame_eq, Hl, orb_true_r. by split; [|exists n].
  - destruct (requests p !! k) as [[[full_path name] meta]|] eqn:Hk; [|by split; [|exists n]].
    set (p' := set_requests (delete k (requests p)) p).
    assert (Hsub : pending p' ⊆+ pending p) by apply filter_delete_sub.
    assert (Hn' : Forall (λ q : string * string * Meta.t, Meta.num_frames q.2 = n) (pending p')).
    { rewrite Forall_forall in Hn |- *. intros x Hx. apply Hn.
      eapply elem_of_submseteq; [exact Hx|exact Hsub]. }
    unfold after. rewrite pointCloudLoaded_eq. unfold current. cbn [snd].
    case_bool_decide as Hid; cbn [negb].
    + change (event_identifier p') with (event_identifier p) in Hid.
      pose proof (filter_delete_in
        (λ q : string * string * Meta.t, Meta.event_identifier q.2 = event_identifier p)
        (requests p) k _ Hk (eq_sym Hid)) as Hperm.
      fold (pending p) in Hperm.
      assert (Hmeta : Meta.num_frames meta = n).
      { rewrite Forall_forall in Hn. apply (Hn (full_path, name, meta)).
        rewrite Hperm. left. }
      assert (Hplen : length (pending p) = S (length (pending p'))).
      { apply Permutation_length in Hperm. exact Hperm. }
      change (frames p') with (frames p). rewrite Hmeta.
      rewrite bool_decide_eq_false_2 by lia. cbn [snd].
      split; [done|]. exists n.
      change (pending (stored (points, meta) p')) with (pending p').
      change (frames (stored (points, meta) p')) with (frames p ++ [frame_of (points, meta)]).
      rewrite length_app. simpl. split; [done|lia].
    + cbn [snd]. split; [done|]. exists n. split; [done|].
      apply submseteq_length in Hsub. change (frames p') with (frames p). lia.
  - set (p' := set_requests (delete k (requests p)) p).
    assert (Hsub : pending p' ⊆+ pending p) by apply filter_delete_sub.
    split; [done|]. exists n. split.
    + rewrite Forall_forall in Hn |- *. intros x Hx. apply Hn.
      eapply elem_of_submseteq; [exact Hx|exact Hsub].
    + apply submseteq_length in Hsub. change (frames p') with (frames p). lia.
  - destruct (timers p !! k); [|by split; [|exists n]].
    unfold after. rewrite playNextFrameCallback_eq. destruct (negb _); [by split; [|exists n]|].
    unfold mbind, M_bind. rewrite nextFrame_eq. cbn [loaded set_timers].
    rewrite Hl, orb_true_r.
    unfold createNextFrameTimer, mbind, M_bind, get. simpl.
    destruct (js_index _ _); by split; [|exists n].
Qed.

Lemma starved_run evs : ∀ p,
  Forall (λ ev, new_session ev = false) evs → starved p → starved (run evs p).
Proof.
  induction evs as [|ev evs IH]; intros p Hevs Hs; [done|].
  apply Forall_cons_1 in Hevs as [Hev Hevs].
  unfold run in *. cbn [foldl]. by apply IH, starved_step.
Qed.

(** X11.  When a request of the session in progress fails, the scene is
    never completed: whatever results, timers and commands of the player
    follow, [loaded] stays false until a reset or a new load starts another
    session. *)
Theorem failed_load_never_completes (p : Player) (k : nat) (q : string * string * Meta.t)
    (evs : list event) :
  reachable p → loaded p = false →
  requests p !! k = Some q → Meta.event_identifier q.2 = event_identifier p →
  Forall (λ ev, new_session ev = false) evs →
  loaded (run evs (step (EvLoadFailed k) p)) = false.
Proof.
  intros Hr Hl Hk Hid Hevs.
  destruct (reachable_settled p Hr) as (_ & (n & Hn & Hlen & _) & _).
  apply (starved_run evs); [done|]. cbn [step].
  set (p' := set_requests (delete k (requests p)) p).
  pose proof (filter_delete_in
    (λ q : string * string * Meta.t, Meta.event_identifier q.2 = event_identifier p)
    (requests p) k _ Hk Hid) as Hperm.
  fold (pending p) in Hperm.
  split; [done|]. exists n. split.
  - rewrite Forall_forall in Hn |- *. intros x Hx. apply Hn. rewrite Hperm. by right.
  - apply Permutation_length in Hperm. change (frames p') with (frames p).
    change (length (pending p) = S (length (pending p'))) in Hperm. lia.
Qed.

Lemma failed_load_never_completes_witness :
  loaded (run [EvLoadResolved 0 10%nat; EvPlay; EvNextFrame]
            (step (EvLoadFailed 0) demo_requested))
  = false.
Proof.
  apply (failed_load_never_completes demo_requested 0
           ("pointclouds/b.pcd", POINT_CLOUD_NAME,
            {| Meta.event_identifier := 1; Meta.scene := Some "s"; Meta.index := Some 0%nat;
               Meta.num_frames := 2; Meta.timestamp := Num 7; Meta.path := Some "b.pcd" |})).
  - exists false, [EvLoadPointClouds "s" demo_scene "color"]. vm_compute. reflexivity.
  - reflexivity.
  - reflexivity.
  - reflexivity.
  - by repeat constructor.
Defined.




(** ** What a load reports *)

Lemma stored_all_log n results : ∀ p,
  Forall (λ r : Points * Meta.t, Meta.num_frames r.2 = n) results →
  status_log (stored_all results p)
  = status_log p
    ++ ((λ k, progress_text (length (frames p) + S k) n) <$> seq 0 (length results)).
Proof.
  induction results as [|r results IH]; intros p Hall.
  - simpl. by rewrite app_nil_r.
  - apply Forall_cons_1 in Hall as [Hn Hall].
    cbn [stored_all foldl]. fold (stored_all results (stored r p)).
    rewrite (IH _ Hall).
    cbn [stored status_log frames set_status_log set_frames length seq fmap list_fmap].
    rewrite <- app_assoc, Hn. cbn [app]. rewrite length_app, <- fmap_S_seq, <- list_fmap_compose.
    unfold progress_text. simpl. do 2 f_equal.
    apply list_fmap_ext. intros i k _. simpl.
    by replace (length (frames p) + 1 + S k)%nat with (length (frames p) + S (S k))%nat by lia.
Qed.

Lemma filter_all {A : Type} (P : A → Prop) `{∀ x, Decision (P x)} (l : list A) :
  Forall P l → filter P l = l.
Proof.
  induction 1 as [|x l Hx _ IH]; [done|]. by rewrite filter_cons, decide_True, IH.
Qed.

Lemma deliver_complete_log results p :
  frames p = [] → results ≠ [] →
  Forall (λ r, Meta.event_identifier r.2 = event_identifier p ∧
               Meta.num_frames r.2 = length results) results →
  status_log (deliver results p)
  = status_log p
    ++ ((λ k, progress_text (S k) (length results)) <$> seq 0 (length results))
    ++ ["Ready."; "Frame 1 of " +:+ pretty (length results) +:+ "."].
Proof.
  intros Hfs Hne Hall.
  destruct results as [|r init _] using rev_ind; [done|]. clear Hne.
  rewrite length_app, Nat.add_1_r in Hall |- *.
  apply Forall_app in Hall as [Hinit Hr]. apply Forall_singleton in Hr as [Hid Hn].
  unfold deliver. rewrite foldl_app. cbn [foldl]. fold (deliver init p).
  rewrite (deliver_partial (S (length init))) by (rewrite ?Hfs; simpl; done || lia).
  destruct (stored_all_fields init p) as (Hf & He & _).
  unfold after. rewrite pointCloudLoaded_eq. unfold current. cbn [fst snd].
  rewrite bool_decide_eq_true_2 by congruence. cbn [negb].
  rewrite bool_decide_eq_true_2 by (rewrite Hf, Hfs, app_nil_l, length_fmap; congruence).
  destruct (completed_shown (r.1, r.2) (stored_all init p)) as (f & Hf0 & ->).
  cbn [snd shown status_log].
  change (frames (set_current_frame (Num 0) (completed (r.1, r.2) (stored_all init p))))
    with (frames (completed (r.1, r.2) (stored_all init p))).
  rewrite length_completed, Hf, Hfs, app_nil_l, length_fmap.
  change (current_frame (set_current_frame (Num 0) (completed (r.1, r.2) (stored_all init p))))
    with (Num 0).
  change (js_to_string (js_add (Num 0) (Num 1))) with "1".
  change (status_log (set_current_frame (Num 0) (completed (r.1, r.2) (stored_all init p))))
    with ((status_log (stored_all init p)
           ++ ["Loaded " +:+ pretty (length (frames (stored_all init p) ++ [frame_of (r.1, r.2)]))
               +:+ " frames of " +:+ pretty (Meta.num_frames r.2) +:+ "."])
          ++ ["Ready."]).
  rewrite (stored_all_log (S (length init))), Hf, Hfs, app_nil_l, length_app, length_fmap, Hn.
  2:{ eapply Forall_impl; [exact Hinit|]. by intros ? [_ ?]. }
  rewrite seq_S, fmap_app, <- !app_assoc. cbn [length Nat.add fmap list_fmap app].
  by rewrite Nat.add_1_r.
Qed.

(** X13.  The status texts of a complete load.  In a state the event loop
    reaches, [loadPointClouds] on N ≥ 1 frame descriptions that all have a
    cloud of the selected type, followed by the results of the requests in
    flight for the new session, in any order and with results of other
    sessions in between, reports in this order: "Loading point clouds.",
    N times "Loading point clouds...", "Loaded k frames of N." for k from
    1 to N, "Ready." and "Frame 1 of N.". *)
Theorem load_reports_progress (p : Player) (name : string) (specs : list FrameSpec.t)
    (type_identifier : string) (results : list (Points * Meta.t)) :
  reachable p → specs ≠ [] → forallb (has_cloud type_identifier) specs = true →
  (λ r, r.2) <$> filter (λ r, Meta.event_identifier r.2 = S (event_identifier p)) results
    ≡ₚ (λ q, q.2) <$> pending (step (EvLoadPointClouds name specs type_identifier) p) →
  status_log (deliver results (step (EvLoadPointClouds name specs type_identifier) p))
  = status_log p
    ++ ["Loading point clouds."]
    ++ replicate (length specs) "Loading point clouds..."
    ++ ((λ k, progress_text (S k) (length specs)) <$> seq 0 (length specs))
    ++ ["Ready."; "Frame 1 of " +:+ pretty (length specs) +:+ "."].
Proof.
  intros Hr Hne Hspecs. destruct (reachable_settled p Hr) as (Hids & _).
  cbn [step]. unfold after. rewrite loadPointClouds_issues by done. cbn [snd].
  set (p0 := cleared (set_status_log (status_log p ++ ["Loading point clouds."]) p)).
  set (reqs := scene_requests name (length specs) type_identifier (event_identifier p0) 0 specs).
  set (p1 := issued name (length specs) type_identifier 0 specs p0).
  destruct (scene_requests_metas name (length specs) type_identifier
              (event_identifier p0) specs 0%nat Hspecs) as (Hlen & Hmeta & _).
  fold reqs in Hlen, Hmeta.
  assert (Hp0 : pending p0 = []) by (apply pending_cleared; exact Hids).
  assert (Hpend : pending p1 = reqs).
  { unfold pending. change (requests p1) with (requests p0 ++ reqs).
    change (event_identifier p1) with (event_identifier p0).
    rewrite filter_app. fold (pending p0). rewrite Hp0, app_nil_l.
    apply filter_all. eapply Forall_impl; [exact Hmeta|]. by intros ? [? _]. }
  rewrite Hpend. intros Hperm.
  destruct (deliver_current results p1 (event_identifier p1) eq_refl) as (-> & _ & _).
  change (event_identifier p1) with (S (event_identifier p)).
  set (cur := filter (λ r, Meta.event_identifier r.2 = S (event_identifier p)) results) in *.
  assert (Hcurlen : length cur = length specs).
  { apply Permutation_length in Hperm. rewrite !length_fmap in Hperm. congruence. }
  assert (Hcur : Forall (λ r, Meta.event_identifier r.2 = event_identifier p1 ∧
                              Meta.num_frames r.2 = length cur) cur).
  { rewrite Hcurlen.
    apply (Forall_fmap (λ r, r.2)
             (λ m, Meta.event_identifier m = event_identifier p1 ∧
                   Meta.num_frames m = length specs)).
    rewrite Hperm. by apply Forall_fmap. }
  rewrite (deliver_complete_log cur p1);
    [| done | by intros E; rewrite E in Hcurlen; destruct specs | exact Hcur].
  rewrite Hcurlen.
  change (status_log p1)
    with ((status_log p ++ ["Loading point clouds."])
          ++ replicate (length specs) "Loading point clouds...").
  by rewrite <- !app_assoc.
Qed.

Lemma load_reports_progress_witness :
  status_log (deliver demo_results
                (step (EvLoadPointClouds "s" demo_scene "color") (constructor false)))
  = [ "Loading point clouds."; "Loading point clouds..."; "Loading point clouds...";
      "Loaded 1 frames of 2."; "Loaded 2 frames of 2."; "Ready."; "Frame 1 of 2." ].
Proof.
  apply (load_reports_progress (constructor false) "s" demo_scene "color" demo_results).
  - by exists false, [].
  - done.
  - reflexivity.
  - vm_compute. apply perm_swap.
Defined.

(** ** Playback *)

Lemma run_cons ev evs p : run (ev :: evs) p = run evs (step ev p).
Proof. reflexivity. Qed.

Lemma timer_step_playing p k d :
  ready p → is_playing p = true → timers p !! k = Some d →
  ∃ i f, current_frame p = Num i ∧ 0 ≤ i < Z.of_nat (length (frames p)) ∧
         js_index (frames p) (Num ((i + 1) `mod` Z.of_nat (length (frames p)))) = Some f ∧
         step (EvTimerFired k) p
         = set_timers (delete k (timers p) ++ [js_mul (Num 1000) (Frame.duration f)])
             (shown f (set_current_frame (Num ((i + 1) `mod` Z.of_nat (length (frames p))))
                         (set_timers (delete k (timers p)) p))).
Proof.
  intros Hr Hp Hd.
  assert (Hl : loaded p = true) by (by apply Hr).
  destruct (ready_index p Hr Hl) as (i & Hc & Hi).
  set (p' := set_timers (delete k (timers p)) p).
  destruct (nextFrame_step p' i Hl Hc Hi) as (f & Hf & E).
  exists i, f. split; [done|]. split; [done|]. split; [done|].
  cbn [step]. rewrite Hd. fold p'. unfold after.
  rewrite playNextFrameCallback_eq.
  change (is_playing p') with (is_playing p). rewrite Hp. cbn [negb].
  erewrite bind_normal by exact E.
  erewrite createNextFrameTimer_eq by exact Hf. done.
Qed.

Lemma playing_run ks : ∀ p,
  ready p → is_playing p = true →
  ∃ i, current_frame p = Num i ∧
       is_playing (run (EvTimerFired <$> ks) p) = true ∧
       frames (run (EvTimerFired <$> ks) p) = frames p ∧
       length (timers (run (EvTimerFired <$> ks) p)) = length (timers p) ∧
       current_frame (run (EvTimerFired <$> ks) p)
       = Num ((i + Z.of_nat (length (filter (λ k, (k < length (timers p))%nat) ks)))
              `mod` Z.of_nat (length (frames p))).
Proof.
  induction ks as [|k ks IH]; intros p Hr Hp.
  - assert (Hl : loaded p = true) by (by apply Hr).
    destruct (ready_index p Hr Hl) as (i & Hc & Hi).
    exists i. split; [done|]. split; [done|]. split; [done|]. split; [done|].
    simpl. by rewrite Hc, Z.add_0_r, Z.mod_small.
  - rewrite fmap_cons, !run_cons.
    destruct (timers p !! k) as [d|] eqn:Hk.
    + destruct (timer_step_playing p k d Hr Hp Hk) as (i & f & Hc & Hi & Hf & E).
      pose proof (ready_step (EvTimerFired k) p Hr) as Hr2.
      rewrite E in Hr2 |- *.
      match type of Hr2 with ready ?q => set (p2 := q) in * end.
      assert (Hlen : length (timers p2) = length (timers p)).
      { unfold p2. cbn [timers set_timers]. rewrite length_app, length_delete by done.
        apply lookup_lt_Some in Hk. simpl. lia. }
      destruct (IH p2 Hr2 Hp) as (i2 & Hc2 & Hq1 & Hq2 & Hq3 & Hq4).
      exists i. split; [done|]. split; [done|]. split; [by rewrite Hq2|].
      split; [by rewrite Hq3|]. rewrite Hq4, Hlen.
      change (frames p2) with (frames p).
      assert (i2 = (i + 1) `mod` Z.of_nat (length (frames p))) as -> by (injection Hc2; done).
      rewrite filter_cons, decide_True by (by apply lookup_lt_Some in Hk).
      cbn [length]. rewrite Zplus_mod_idemp_l. f_equal. f_equal. lia.
    + cbn [step]. rewrite Hk.
      destruct (IH p Hr Hp) as (i & Hc & Hq1 & Hq2 & Hq3 & Hq4).
      exists i. split; [done|]. split; [done|]. split; [done|]. split; [done|].
      rewrite Hq4. by rewrite filter_cons, decide_False by (apply lookup_ge_None in Hk; lia).
Qed.

(** X14.  Playback never uses up its timers.  In a state the event loop
    reaches with the Player playing, every pending timer that fires moves
    to the next frame and arms a new timer: after any sequence of timer
    events the Player is still playing, as many timers are pending as
    before, and the current frame has advanced, modulo the number of frames,
    by the number of events that hit a pending timer.  Timers left over from
    an earlier [play()] so keep running beside the new one. *)
Theorem playing_timers_keep_firing (p : Player) (ks : list nat) :
  reachable p → is_playing p = true →
  ∃ i, current_frame p = Num i ∧
       is_playing (run (EvTimerFired <$> ks) p) = true ∧
       frames (run (EvTimerFired <$> ks) p) = frames p ∧
       length (timers (run (EvTimerFired <$> ks) p)) = length (timers p) ∧
       current_frame (run (EvTimerFired <$> ks) p)
       = Num ((i + Z.of_nat (length (filter (λ k, (k < length (timers p))%nat) ks)))
              `mod` Z.of_nat (length (frames p))).
Proof. intros Hr%reachable_ready Hp. by apply playing_run. Qed.

Lemma playing_timers_keep_firing_witness :
  length (timers (run (EvTimerFired <$> [0; 1; 0; 5]%nat) demo_double)) = 2%nat ∧
  current_frame (run (EvTimerFired <$> [0; 1; 0; 5]%nat) demo_double) = Num 1.
Proof.
  destruct (playing_timers_keep_firing demo_double [0; 1; 0; 5]%nat)
    as (i & Hc & _ & _ & Hlen & Hcur).
  - exists false, (demo_loading ++ [EvPlay; EvPause; EvPlay]). vm_compute. reflexivity.
  - reflexivity.
  - injection Hc as <-. split; [exact Hlen | exact Hcur].
Defined.

Lemma play_loop k : ∀ p f0,
  ready p → is_playing p = true →
  js_index (frames p) (current_frame p) = Some f0 →
  timers p = [js_mul (Num 1000) (Frame.duration f0)] →
  ∃ i f, current_frame p = Num i ∧
         is_playing (run (replicate k (EvTimerFired 0)) p) = true ∧
         frames (run (replicate k (EvTimerFired 0)) p) = frames p ∧
         current_frame (run (replicate k (EvTimerFired 0)) p)
         = Num ((i + Z.of_nat k) `mod` Z.of_nat (length (frames p))) ∧
         js_index (frames p) (current_frame (run (replicate k (EvTimerFired 0)) p)) = Some f ∧
         timers (run (replicate k (EvTimerFired 0)) p)
         = [js_mul (Num 1000) (Frame.duration f)].
Proof.
  induction k as [|k IH]; intros p f0 Hr Hp Hf0 Ht.
  - assert (Hl : loaded p = true) by (by apply Hr).
    destruct (ready_index p Hr Hl) as (i & Hc & Hi).
    exists i, f0. split; [done|]. split; [done|]. split; [done|].
    split; [simpl; by rewrite Hc, Z.add_0_r, Z.mod_small|]. done.
  - cbn [replicate]. rewrite !run_cons.
    destruct (timer_step_playing p 0 (js_mul (Num 1000) (Frame.duration f0)) Hr Hp)
      as (i & f & Hc & Hi & Hf & E); [by rewrite Ht|].
    pose proof (ready_step (EvTimerFired 0) p Hr) as Hr2.
    rewrite E in Hr2 |- *. rewrite Ht in Hr2 |- *. cbn [delete app] in Hr2 |- *.
    match type of Hr2 with ready ?q => set (p2 := q) in * end.
    destruct (IH p2 f Hr2 Hp Hf eq_refl) as (i2 & g & Hc2 & Hq1 & Hq2 & Hq3 & Hq4 & Hq5).
    exists i, g. split; [done|]. split; [done|]. split; [by rewrite Hq2|].
    change (frames p2) with (frames p) in Hq3, Hq4.
    assert (i2 = (i + 1) `mod` Z.of_nat (length (frames p))) as -> by (injection Hc2; done).
    split; [|done]. rewrite Hq3, Zplus_mod_idemp_l. f_equal. f_equal. lia.
Qed.

(** X15.  Playback shows the frames in turn.  In a state the event loop
    reaches, with the scene loaded, at least two frames, the Player paused
    and no timer pending, [play()] followed by [k] firings of the pending
    timer leaves the Player playing at frame [(i + k) mod N], with exactly
    one timer pending, set to 1000 times the duration of that frame. *)
Theorem playback_advances (p : Player) (k : nat) :
  reachable p → loaded p = true → (2 ≤ length (frames p))%nat →
  is_playing p = false → timers p = [] →
  ∃ i f, current_frame p = Num i ∧
         is_playing (run (EvPlay :: replicate k (EvTimerFired 0)) p) = true ∧
         current_frame (run (EvPlay :: replicate k (EvTimerFired 0)) p)
         = Num ((i + Z.of_nat k) `mod` Z.of_nat (length (frames p))) ∧
         js_index (frames p) (current_frame (run (EvPlay :: replicate k (EvTimerFired 0)) p))
         = Some f ∧
         timers (run (EvPlay :: replicate k (EvTimerFired 0)) p)
         = [js_mul (Num 1000) (Frame.duration f)].
Proof.
  intros Hr%reachable_ready Hl Hlen Hp Ht.
  destruct (play_from_paused p Hr Hl Hlen Hp) as (f0 & Hf0 & E).
  pose proof (ready_step EvPlay p Hr) as Hr1.
  rewrite !run_cons.
  cbn [step] in Hr1 |- *. unfold after in Hr1 |- *. rewrite E in Hr1 |- *.
  rewrite Ht in Hr1 |- *. cbn [snd app] in Hr1 |- *.
  match type of Hr1 with ready ?q => set (p1 := q) in * end.
  destruct (play_loop k p1 f0 Hr1 eq_refl Hf0 eq_refl) as (i & f & Hc & Hq1 & Hq2 & Hq3 & Hq4 & Hq5).
  by exists i, f.
Qed.

Lemma playback_advances_witness :
  current_frame (run (EvPlay :: replicate 3 (EvTimerFired 0)) demo_ready) = Num 1 ∧
  timers (run (EvPlay :: replicate 3 (EvTimerFired 0)) demo_ready) = [Num 1000].
Proof.
  destruct (playback_advances demo_ready 3) as (i & f & Hc & _ & Hcur & Hf & Ht).
  - exists false, demo_loading. vm_compute. reflexivity.
  - reflexivity.
  - vm_compute. lia.
  - reflexivity.
  - reflexivity.
  - injection Hc as <-. rewrite Hcur in Hf. vm_compute in Hf. injection Hf as <-.
    split; [exact Hcur | exact Ht].
Defined.

Lemma set_timers_twice a b p : set_timers a (set_timers b p) = set_timers a p.
Proof. by destruct p. Qed.

Lemma set_timers_id p : set_timers (timers p) p = p.
Proof. by destruct p. Qed.

Lemma timer_step_paused p k :
  is_playing p = false → step (EvTimerFired k) p = set_timers (delete k (timers p)) p.
Proof.
  intros Hp. cbn [step]. destruct (timers p !! k) as [d|] eqn:Hk.
  - unfold after. rewrite playNextFrameCallback_eq.
    change (is_playing (set_timers (delete k (timers p)) p)) with (is_playing p).
    by rewrite Hp.
  - apply lookup_ge_None in Hk.
    by rewrite delete_take_drop, take_ge, drop_ge, app_nil_r, set_timers_id by lia.
Qed.

Lemma paused_run ks : ∀ p,
  is_playing p = false →
  run (EvTimerFired <$> ks) p = set_timers (timers (run (EvTimerFired <$> ks) p)) p ∧
  timers (run (EvTimerFired <$> ks) p) `sublist_of` timers p.
Proof.
  induction ks as [|k ks IH]; intros p Hp.
  - simpl. by rewrite set_timers_id.
  - rewrite fmap_cons, !run_cons, timer_step_paused by done.
    destruct (IH (set_timers (delete k (timers p)) p) Hp) as (E & Hsub).
    split.
    + rewrite E at 1. by rewrite set_timers_twice.
    + etrans; [exact Hsub|]. apply sublist_delete.
Qed.

Lemma paused_drain n : ∀ p,
  is_playing p = false → length (timers p) = n →
  run (replicate n (EvTimerFired 0)) p = set_timers [] p.
Proof.
  induction n as [|n IH]; intros p Hp Hn.
  - destruct (timers p) eqn:E; [|done]. simpl. by rewrite <- E, set_timers_id.
  - destruct (timers p) as [|d ts] eqn:E; [done|].
    cbn [replicate]. rewrite run_cons, timer_step_paused, E by done. cbn [delete].
    rewrite IH; [by rewrite set_timers_twice|done|]. simpl in Hn |- *. lia.
Qed.

(** X16.  While the Player is paused, timers that fire only disappear:
    after any sequence of timer events the Player is as before except that
    some of its pending timers are gone, and once every pending timer has
    fired none is left.  No frame is shown and no timer is armed. *)
Theorem paused_timers_only_drain (p : Player) (ks : list nat) :
  is_playing p = false →
  run (EvTimerFired <$> ks) p = set_timers (timers (run (EvTimerFired <$> ks) p)) p ∧
  timers (run (EvTimerFired <$> ks) p) `sublist_of` timers p ∧
  run (replicate (length (timers p)) (EvTimerFired 0)) p = set_timers [] p.
Proof.
  intros Hp. destruct (paused_run ks p Hp) as (E & Hsub).
  split; [done|]. split; [done|]. by apply paused_drain.
Qed.

Lemma paused_timers_only_drain_witness :
  run (replicate 2 (EvTimerFired 0)) (step EvPause demo_double)
  = set_timers [] (step EvPause demo_double).
Proof.
  by destruct (paused_timers_only_drain (step EvPause demo_double) []) as (_ & _ & E).
Defined.

(** ** The Controller *)

Lemma playing_nextFrame p : is_playing (after nextFrame p) = is_playing p.
Proof.
  unfold after. rewrite nextFrame_eq. destruct (_ || _); [done|].
  match goal with |- context [showCurrentFrame ?q] =>
    pose proof (showCurrentFrame_core q) as (_ & H & _) end.
  exact H.
Qed.

Lemma playing_previousFrame p : is_playing (after previousFrame p) = is_playing p.
Proof.
  unfold after. rewrite previousFrame_eq. destruct (_ || _); [done|].
  match goal with |- context [showCurrentFrame ?q] =>
    pose proof (showCurrentFrame_core q) as (_ & H & _) end.
  exact H.
Qed.

Lemma playing_pointCloudLoaded points meta p :
  is_playing (after (pointCloudLoaded points meta) p) = is_playing p.
Proof.
  unfold after. rewrite pointCloudLoaded_eq.
  destruct (negb _); [reflexivity|].
  destruct (bool_decide _); [|reflexivity].
  destruct (completed_shown (points, meta) p) as (f & Hf0 & ->). reflexivity.
Qed.

Lemma playing_playNextFrameCallback p :
  is_playing (after playNextFrameCallback p) = is_playing p.
Proof.
  unfold after. rewrite playNextFrameCallback_eq. destruct (negb _); [done|].
  pose proof (playing_nextFrame p) as Hn. unfold after in Hn.
  unfold mbind, M_bind. destruct (nextFrame p) as [[[]|] q']; [|done].
  destruct (createNextFrameTimer_core q') as (_ & Hc & _). unfold after in Hc.
  cbn [snd] in *. congruence.
Qed.

Lemma playing_loadPointClouds name specs ty p :
  is_playing (after (loadPointClouds name specs ty) p) = false.
Proof. by destruct (loadPointClouds_core name specs ty p) as (_ & -> & _). Qed.

Lemma loaded_loadPointClouds name specs ty p :
  loaded (after (loadPointClouds name specs ty) p) = false.
Proof. by destruct (loadPointClouds_core name specs ty p) as (_ & _ & -> & _). Qed.

Lemma cstep_player ev c : player (cstep ev c) = run (player_events ev c) (player c).
Proof.
  destruct ev; cbn [cstep player_events].
  - done.
  - unfold onSelectType, mbind, CM_bind, on_player. rewrite reset_eq.
    cbn [fst snd player scene_configurations select_scene_element select_type_element
         set_player].
    destruct (_ !! _) as [scene|]; [|done].
    unfold run. cbn [foldl step]. unfold after at 2. rewrite reset_eq. cbn [snd].
    unfold after.
    by destruct (loadPointClouds _ _ _ _) as [[[]|] q].
  - unfold playFrames, mbind, CM_bind, on_player. cbn [run foldl step]. unfold after.
    by destruct (play (player c)) as [[b|] q].
  - unfold jumpToNextFrame, pausePlayer, mbind, CM_bind, on_player.
    cbn [run foldl step]. unfold after.
    change (pause (player c)) with (Normal (), set_is_playing false (player c)).
    cbn [fst snd updatePlayPauseButton player set_play_pause_button set_player].
    by destruct (nextFrame _) as [[[]|] q].
  - unfold jumpToPreviousFrame, pausePlayer, mbind, CM_bind, on_player.
    cbn [run foldl step]. unfold after.
    change (pause (player c)) with (Normal (), set_is_playing false (player c)).
    cbn [fst snd updatePlayPauseButton player set_play_pause_button set_player].
    by destruct (previousFrame _) as [[[]|] q].
  - done.
  - done.
  - done.
Qed.

Lemma reachable_run evs : ∀ p, reachable p → reachable (run evs p).
Proof.
  induction evs as [|ev evs IH]; intros p Hp; [done|].
  rewrite run_cons. by apply IH, reachable_step.
Qed.

Lemma crun_cons ev evs c : crun (ev :: evs) c = crun evs (cstep ev c).
Proof. reflexivity. Qed.

Lemma reachable_cstep ev c : reachable (player c) → reachable (player (cstep ev c)).
Proof. intros H. rewrite cstep_player. by apply reachable_run. Qed.

Lemma reachable_crun evs : ∀ c, reachable (player c) → reachable (player (crun evs c)).
Proof.
  induction evs as [|ev evs IH]; intros c Hc; [done|].
  rewrite crun_cons. by apply IH, reachable_cstep.
Qed.

(** X17.  The Controller drives the Player only through the events of the
    event loop: what a handler does to the Player is what the listed Player
    events do, also when the handler throws.  A Player created by the
    Controller is therefore, after any sequence of clicks, selections, load
    results and timers, in a state the event loop reaches. *)
Theorem controller_drives_player_by_events (cb : bool) (c : Controller)
    (evs : list cevent) :
  player c = constructor cb →
  (∀ ev d, player (cstep ev d) = run (player_events ev d) (player d)) ∧
  reachable (player (crun evs c)).
Proof.
  intros Hc. split; [apply cstep_player|].
  apply reachable_crun. rewrite Hc. by exists cb, [].
Qed.

Lemma controller_drives_player_by_events_witness :
  reachable (player demo_controller).
Proof.
  destruct (controller_drives_player_by_events false
    (mkController (constructor false) {[ "s" := SceneConfig.mk "s" demo_scene ]}
       "s" "color" "PLAY")
    [CvSelectType; CvLoadResolved 0 10%nat; CvLoadResolved 0 11%nat; CvPlayPause] eq_refl)
    as [_ H].
  destruct H as (cb & evs & E). exists cb, evs.
  etrans; [|exact E]. vm_compute. reflexivity.
Defined.

Lemma nextFrame_completes p : ready p → (nextFrame p).1 = Normal ().
Proof.
  intros Hr. rewrite nextFrame_eq.
  destruct (js_is_undefined (current_frame p) || negb (loaded p)) eqn:E; [done|].
  apply orb_false_iff in E as [_ Hl%negb_false_iff].
  destruct (ready_index p Hr Hl) as (i & Hc & Hi).
  destruct (nextFrame_step p i Hl Hc Hi) as (f & _ & E).
  rewrite nextFrame_eq, Hc, Hl in E. cbn [js_is_undefined orb negb] in E.
  rewrite Hc. by rewrite E.
Qed.

Lemma previousFrame_completes p : ready p → (previousFrame p).1 = Normal ().
Proof.
  intros Hr. rewrite previousFrame_eq.
  destruct (js_is_undefined (current_frame p) || negb (loaded p)) eqn:E; [done|].
  apply orb_false_iff in E as [_ Hl%negb_false_iff].
  destruct (ready_index p Hr Hl) as (i & Hc & Hi).
  destruct (previousFrame_step p i Hl Hc Hi) as (f & _ & E).
  rewrite previousFrame_eq, Hc, Hl in E. cbn [js_is_undefined orb negb] in E.
  rewrite Hc. by rewrite E.
Qed.

Lemma play_completes p : ready p → ∃ b, (play p).1 = Normal b.
Proof.
  intros Hr. rewrite play_eq.
  case_bool_decide as Hlen; [by eexists|].
  destruct (loaded p) eqn:Hl; [|by eexists]. cbn [negb].
  destruct (is_playing p) eqn:Hp; [by eexists|].
  destruct (play_from_paused p Hr Hl ltac:(lia) Hp) as (f & -> & _). by eexists.
Qed.

Lemma playFrames_synced c :
  ready (player c) →
  (playFrames c).1 = Normal () ∧
  play_pause_button (cstep CvPlayPause c) = button_text (player (cstep CvPlayPause c)).
Proof.
  intros Hr. destruct (play_completes (player c) Hr) as [b Hb].
  cbn [cstep]. unfold playFrames, mbind, CM_bind, on_player.
  destruct (play (player c)) as [[b'|] q]; [|done]. done.
Qed.

Lemma jumpToNextFrame_synced c :
  ready (player c) →
  (jumpToNextFrame c).1 = Normal () ∧
  is_playing (player (cstep CvNextFrame c)) = false ∧
  play_pause_button (cstep CvNextFrame c) = "PLAY".
Proof.
  intros Hr. pose proof (ready_step EvPause _ Hr) as Hr'. cbn [step] in Hr'.
  pose proof (nextFrame_completes _ Hr') as Hn.
  pose proof (playing_nextFrame (after pause (player c))) as Hp.
  unfold after in Hr', Hn, Hp.
  change (pause (player c)) with (Normal (), set_is_playing false (player c)) in *.
  cbn [snd] in *.
  cbn [cstep]. unfold jumpToNextFrame, pausePlayer, mbind, CM_bind, on_player.
  change (pause (player c)) with (Normal (), set_is_playing false (player c)).
  cbn [fst snd updatePlayPauseButton player set_play_pause_button set_player is_playing
       set_is_playing] in *.
  destruct (nextFrame _) as [[[]|] q]; [|done]. done.
Qed.

Lemma jumpToPreviousFrame_synced c :
  ready (player c) →
  (jumpToPreviousFrame c).1 = Normal () ∧
  is_playing (player (cstep CvPreviousFrame c)) = false ∧
  play_pause_button (cstep CvPreviousFrame c) = "PLAY".
Proof.
  intros Hr. pose proof (ready_step EvPause _ Hr) as Hr'. cbn [step] in Hr'.
  pose proof (previousFrame_completes _ Hr') as Hn.
  pose proof (playing_previousFrame (after pause (player c))) as Hp.
  unfold after in Hr', Hn, Hp.
  change (pause (player c)) with (Normal (), set_is_playing false (player c)) in *.
  cbn [snd] in *.
  cbn [cstep]. unfold jumpToPreviousFrame, pausePlayer, mbind, CM_bind, on_player.
  change (pause (player c)) with (Normal (), set_is_playing false (player c)).
  cbn [fst snd updatePlayPauseButton player set_play_pause_button set_player is_playing
       set_is_playing] in *.
  destruct (previousFrame _) as [[[]|] q]; [|done]. done.
Qed.

Lemma onSelectType_effect c :
  is_playing (player (cstep CvSelectType c)) = false ∧
  loaded (player (cstep CvSelectType c)) = false ∧
  ((onSelectType c).1 = Normal () → play_pause_button (cstep CvSelectType c) = "PLAY") ∧
  ((onSelectType c).1 = TypeError →
     play_pause_button (cstep CvSelectType c) = play_pause_button c) ∧
  ((onSelectType c).1 = TypeError ↔
     scene_configurations c !! select_scene_element c = None ∨
     ∃ scene, scene_configurations c !! select_scene_element c = Some scene ∧
              (loadPointClouds (SceneConfig.name scene) (SceneConfig.frames scene)
                 (select_type_element c) (after reset (player c))).1 = TypeError).
Proof.
  cbn [cstep]. unfold onSelectType, mbind, CM_bind, on_player, after.
  rewrite reset_eq.
  cbn [fst snd player scene_configurations select_scene_element select_type_element
       set_player].
  destruct (_ !! _) as [scene|].
  2:{ split; [done|]. split; [done|]. split; [done|]. split; [done|].
      split; [by left|done]. }
  pose proof (playing_loadPointClouds (SceneConfig.name scene) (SceneConfig.frames scene)
                (select_type_element c) (cleared (player c))) as Hp.
  pose proof (loaded_loadPointClouds (SceneConfig.name scene) (SceneConfig.frames scene)
                (select_type_element c) (cleared (player c))) as Hl.
  unfold after in Hp, Hl.
  destruct (loadPointClouds _ _ _ _) as [[[]|] q] eqn:E; cbn [fst snd] in *.
  - cbn [updatePlayPauseButton fst snd player set_player set_play_pause_button
         play_pause_button].
    rewrite Hp. split; [done|]. split; [done|]. split; [done|]. split; [done|].
    split; [done|]. intros [?|(s & [= <-] & H)]; [done|]. by rewrite E in H.
  - split; [done|]. split; [done|]. split; [done|]. split; [done|].
    split; [|done]. intros _. right. exists scene. by rewrite E.
Qed.

(** X18.  The handlers keep the play button in step with the Player.  With
    the Player in a state the event loop reaches, a click on the play
    button completes and leaves the button showing "PAUSE" exactly when the
    Player plays; a click on the next or the previous button completes and
    leaves the Player paused and the button showing "PLAY"; and a change of
    the type that completes leaves the Player paused and the button showing
    "PLAY". *)
Theorem button_follows_player (c : Controller) :
  reachable (player c) →
  ((playFrames c).1 = Normal () ∧
   play_pause_button (cstep CvPlayPause c) = button_text (player (cstep CvPlayPause c))) ∧
  ((jumpToNextFrame c).1 = Normal () ∧
   is_playing (player (cstep CvNextFrame c)) = false ∧
   play_pause_button (cstep CvNextFrame c) = "PLAY") ∧
  ((jumpToPreviousFrame c).1 = Normal () ∧
   is_playing (player (cstep CvPreviousFrame c)) = false ∧
   play_pause_button (cstep CvPreviousFrame c) = "PLAY") ∧
  ((onSelectType c).1 = Normal () →
   is_playing (player (cstep CvSelectType c)) = false ∧
   play_pause_button (cstep CvSelectType c) = "PLAY").
Proof.
  intros Hr%reachable_ready.
  split; [by apply playFrames_synced|].
  split; [by apply jumpToNextFrame_synced|].
  split; [by apply jumpToPreviousFrame_synced|].
  intros Hn. destruct (onSelectType_effect c) as (Hp & _ & Hb & _). split; [done|by apply Hb].
Qed.

Lemma button_follows_player_witness :
  play_pause_button (cstep CvPlayPause demo_controller) = "PLAY" ∧
  play_pause_button (cstep CvNextFrame demo_controller) = "PLAY".
Proof.
  destruct (button_follows_player demo_controller) as ((_ & H1) & (_ & _ & H2) & _).
  - exists false, (EvReset :: demo_loading ++ [EvPlay]). vm_compute. reflexivity.
  - split; [exact H1 | exact H2].
Defined.

Lemma playing_shows_pause_step ev c :
  reachable (player c) →
  (is_playing (player c) = true → play_pause_button c = "PAUSE") →
  is_playing (player (cstep ev c)) = true → play_pause_button (cstep ev c) = "PAUSE".
Proof.
  intros Hr%reachable_ready Hinv. destruct ev.
  - exact Hinv.
  - destruct (onSelectType_effect c) as (Hp & _). congruence.
  - destruct (playFrames_synced c Hr) as (_ & ->). unfold button_text. by intros ->.
  - destruct (jumpToNextFrame_synced c Hr) as (_ & Hp & _). congruence.
  - destruct (jumpToPreviousFrame_synced c Hr) as (_ & Hp & _). congruence.
  - cbn [cstep player set_player play_pause_button step].
    destruct (requests (player c) !! k) as [[[full_path name] meta]|]; [|done].
    by rewrite playing_pointCloudLoaded.
  - done.
  - cbn [cstep player set_player play_pause_button step].
    destruct (timers (player c) !! k); [|done].
    by rewrite playing_playNextFrameCallback.
Qed.

(** X19.  The button never invites to play while the Player is playing:
    starting from a Controller whose Player is in a state the event loop
    reaches and whose button shows "PAUSE" if the Player plays, after any
    sequence of selections, clicks, load results and timers the button
    shows "PAUSE" whenever the Player is playing. *)
Theorem button_shows_pause_while_playing (c : Controller) (evs : list cevent) :
  reachable (player c) →
  (is_playing (player c) = true → play_pause_button c = "PAUSE") →
  is_playing (player (crun evs c)) = true →
  play_pause_button (crun evs c) = "PAUSE".
Proof.
  revert c. induction evs as [|ev evs IH]; intros c Hr Hinv; [done|].
  rewrite crun_cons. apply IH; [by apply reachable_cstep|by apply playing_shows_pause_step].
Qed.

Lemma button_shows_pause_while_playing_witness :
  play_pause_button
    (crun [CvSelectType; CvLoadResolved 0 10%nat; CvLoadResolved 0 11%nat; CvPlayPause;
           CvTimerFired 0]
       (mkController (constructor true) {[ "s" := SceneConfig.mk "s" demo_scene ]}
          "s" "color" "PLAY")) = "PAUSE".
Proof.
  apply button_shows_pause_while_playing.
  - by exists true, [].
  - discriminate.
  - vm_compute. reflexivity.
Defined.

(** X20.  A change of the type that throws leaves the button as it was.
    [onSelectType] throws exactly when the selected scene is not among the
    configurations or [loadPointClouds] throws; the Player has then been
    reset, so it is paused and not loaded, and the button has not been
    updated: it still shows "PAUSE" if the Player was playing. *)
Theorem failed_selection_keeps_button (c : Controller) :
  ((onSelectType c).1 = TypeError ↔
     scene_configurations c !! select_scene_element c = None ∨
     ∃ scene, scene_configurations c !! select_scene_element c = Some scene ∧
              (loadPointClouds (SceneConfig.name scene) (SceneConfig.frames scene)
                 (select_type_element c) (after reset (player c))).1 = TypeError) ∧
  ((onSelectType c).1 = TypeError →
     play_pause_button (cstep CvSelectType c) = play_pause_button c ∧
     is_playing (player (cstep CvSelectType c)) = false ∧
     loaded (player (cstep CvSelectType c)) = false).
Proof.
  destruct (onSelectType_effect c) as (Hp & Hl & _ & Hb & Hiff).
  split; [done|]. intros Ht. split; [by apply Hb|done].
Qed.

Lemma failed_selection_keeps_button_witness :
  play_pause_button (cstep CvSelectType (set_selection "s" "depth" demo_controller)) = "PAUSE" ∧
  is_playing (player (cstep CvSelectType (set_selection "s" "depth" demo_controller))) = false.
Proof.
  destruct (failed_selection_keeps_button (set_selection "s" "depth" demo_controller))
    as (_ & H).
  destruct H as (H1 & H2 & _); [vm_compute; reflexivity|].
  split; [exact H1 | exact H2].
Defined.

(** ** Which loads throw *)




(** ** The types on offer *)







Lemma crun_timers ks : ∀ c,
  player (crun (CvTimerFired <$> ks) c) = run (EvTimerFired <$> ks) (player c).
Proof.
  induction ks as [|k ks IH]; intros c; [done|].
  rewrite !fmap_cons, crun_cons, run_cons, IH. done.
Qed.

(** X23.  A click on the next button during playback stops the playback
    and moves one frame.  With the Player in a state the event loop reaches
    and the scene loaded, the handler leaves the Player paused at frame
    [(i + 1) mod N] with its timers as they were; the timers that fire
    afterwards change neither the current frame nor what is shown. *)
Theorem next_click_stops_playback (c : Controller) (ks : list nat) :
  reachable (player c) → loaded (player c) = true →
  ∃ i, current_frame (player c) = Num i ∧
       is_playing (player (cstep CvNextFrame c)) = false ∧
       current_frame (player (cstep CvNextFrame c))
       = Num ((i + 1) `mod` Z.of_nat (length (frames (player c)))) ∧
       timers (player (cstep CvNextFrame c)) = timers (player c) ∧
       current_frame (player (crun (CvTimerFired <$> ks) (cstep CvNextFrame c)))
       = current_frame (player (cstep CvNextFrame c)) ∧
       scene (player (crun (CvTimerFired <$> ks) (cstep CvNextFrame c)))
       = scene (player (cstep CvNextFrame c)) ∧
       rendered (player (crun (CvTimerFired <$> ks) (cstep CvNextFrame c)))
       = rendered (player (cstep CvNextFrame c)).
Proof.
  intros Hr%reachable_ready Hl.
  destruct (ready_index _ Hr Hl) as (i & Hc & Hi). exists i. split; [done|].
  rewrite crun_timers, cstep_player. cbn [player_events]. rewrite !run_cons.
  cbn [run foldl step].
  change (after pause (player c)) with (set_is_playing false (player c)).
  destruct (nextFrame_step (set_is_playing false (player c)) i Hl Hc Hi) as (f & Hf & E).
  unfold after. rewrite E. cbn [snd].
  set (q := shown f _) in *.
  destruct (paused_run ks q eq_refl) as (Eq & _).
  split; [done|]. split; [done|]. split; [done|].
  rewrite Eq. done.
Qed.

Lemma next_click_stops_playback_witness :
  current_frame (player (crun (CvTimerFired <$> [0%nat]) (cstep CvNextFrame demo_controller)))
  = Num 1.
Proof.
  destruct (next_click_stops_playback demo_controller [0%nat]) as (i & Hc & _ & H1 & _ & H2 & _).
  - exists false, (EvReset :: demo_loading ++ [EvPlay]). vm_compute. reflexivity.
  - reflexivity.
  - injection Hc as <-. etrans; [exact H2|exact H1].
Defined.

(** ** What a session keeps *)

Lemma keeps_nextFrame p :
  event_identifier (after nextFrame p) = event_identifier p ∧
  loaded (after nextFrame p) = loaded p ∧
  frames (after nextFrame p) = frames p.
Proof.
  unfold after. rewrite nextFrame_eq. destruct (_ || _); [done|].
  match goal with |- context [showCurrentFrame ?q] =>
    pose proof (showCurrentFrame_core q) as (H1 & _ & H2 & H3 & _) end.
  done.
Qed.

Lemma keeps_previousFrame p :
  event_identifier (after previousFrame p) = event_identifier p ∧
  loaded (after previousFrame p) = loaded p ∧
  frames (after previousFrame p) = frames p.
Proof.
  unfold after. rewrite previousFrame_eq. destruct (_ || _); [done|].
  match goal with |- context [showCurrentFrame ?q] =>
    pose proof (showCurrentFrame_core q) as (H1 & _ & H2 & H3 & _) end.
  done.
Qed.

Lemma keeps_play p :
  event_identifier (after play p) = event_identifier p ∧
  loaded (after play p) = loaded p ∧
  frames (after play p) = frames p.
Proof.
  unfold after. rewrite play_eq. case_bool_decide; [done|]. destruct (negb _); [done|].
  destruct (is_playing p); [done|]. by destruct (js_index _ _).
Qed.

Lemma keeps_playNextFrameCallback p :
  event_identifier (after playNextFrameCallback p) = event_identifier p ∧
  loaded (after playNextFrameCallback p) = loaded p ∧
  frames (after playNextFrameCallback p) = frames p.
Proof.
  unfold after. rewrite playNextFrameCallback_eq. destruct (negb _); [done|].
  pose proof (keeps_nextFrame p) as Hn. unfold after in Hn.
  unfold mbind, M_bind. destruct (nextFrame p) as [[[]|] q']; [|done].
  destruct (createNextFrameTimer_core q') as (H1 & _ & H2 & H3 & _). unfold after in H1, H2, H3.
  cbn [snd] in *. destruct Hn as (? & ? & ?). split_and!; congruence.
Qed.

Lemma id_pointCloudLoaded points meta p :
  event_identifier (after (pointCloudLoaded points meta) p) = event_identifier p.
Proof.
  unfold after. rewrite pointCloudLoaded_eq.
  destruct (negb _); [reflexivity|].
  destruct (bool_decide _); [|reflexivity].
  destruct (completed_shown (points, meta) p) as (f & Hf0 & ->). reflexivity.
Qed.

Lemma id_step ev p :
  event_identifier (step ev p)
  = (event_identifier p + (if new_session ev then 1 else 0))%nat.
Proof.
  destruct ev; cbn [new_session]; rewrite ?Nat.add_0_r, ?Nat.add_1_r;
    try (by apply step_new_session); cbn [step].
  - apply keeps_play.
  - done.
  - apply keeps_nextFrame.
  - apply keeps_previousFrame.
  - destruct (requests p !! k) as [[[full_path name] meta]|]; [|done].
    by rewrite id_pointCloudLoaded.
  - done.
  - destruct (timers p !! k); [|done].
    by destruct (keeps_playNextFrameCallback (set_timers (delete k (timers p)) p)) as (-> & _).
Qed.

(** X24.  Event identifiers count the sessions: after any sequence of
    events the identifier of the Player is the one it had plus the number
    of resets and loads among the events; nothing else changes it, so the
    identifier of a session is never used again. *)
Theorem event_identifier_counts_sessions (p : Player) (evs : list event) :
  event_identifier (run evs p)
  = (event_identifier p + length (filter (λ ev, new_session ev = true) evs))%nat.
Proof.
  revert p. induction evs as [|ev evs IH]; intros p; [simpl; lia|].
  rewrite run_cons, IH, id_step, filter_cons.
  destruct (new_session ev); [rewrite decide_True by done|rewrite decide_False by done];
    simpl; lia.
Qed.

Lemma loaded_step_keeps ev p :
  reachable p → loaded p = true → new_session ev = false →
  loaded (step ev p) = true ∧ frames (step ev p) = frames p.
Proof.
  intros Hr Hl Hev. destruct ev; cbn [step].
  - done.
  - done.
  - done.
  - destruct (keeps_play p) as (_ & -> & ->). done.
  - split; [exact Hl|done].
  - destruct (keeps_nextFrame p) as (_ & -> & ->). done.
  - destruct (keeps_previousFrame p) as (_ & -> & ->). done.
  - destruct (reachable_settled p Hr) as (_ & (n & Hn & Hlen & Hln) & _).
    specialize (Hln Hl).
    assert (Hp : pending p = []).
    { destruct (pending p); [done|]. simpl in Hlen. lia. }
    destruct (requests p !! k) as [[[full_path name] meta]|] eqn:Hk; [|done].
    unfold after. rewrite pointCloudLoaded_stale; [split; [exact Hl|done]|].
    cbn [event_identifier set_requests]. intros E.
    assert ((full_path, name, meta) ∈ pending p) as Hin.
    { unfold pending. apply list_elem_of_filter. split; [done|].
      by eapply list_elem_of_lookup_2. }
    rewrite Hp in Hin. by apply elem_of_nil in Hin.
  - split; [exact Hl|done].
  - destruct (timers p !! k); [|done].
    destruct (keeps_playNextFrameCallback (set_timers (delete k (timers p)) p))
      as (_ & -> & ->). done.
Qed.

(** X25.  A loaded scene stays as it is.  From a loaded state the event
    loop reaches, no sequence of load results, failed loads, timers and
    calls of [play], [pause], [nextFrame] and [previousFrame] changes
    [frames] or clears [loaded]; only a reset or a new load does. *)
Theorem loaded_scene_stays (p : Player) (evs : list event) :
  reachable p → loaded p = true →
  Forall (λ ev, new_session ev = false) evs →
  loaded (run evs p) = true ∧ frames (run evs p) = frames p.
Proof.
  revert p. induction evs as [|ev evs IH]; intros p Hr Hl Hevs; [done|].
  apply Forall_cons_1 in Hevs as [Hev Hevs].
  destruct (loaded_step_keeps ev p Hr Hl Hev) as (Hl' & Hf').
  rewrite run_cons. by destruct (IH (step ev p)) as (-> & ->); [by apply reachable_step|..].
Qed.

Lemma loaded_scene_stays_witness :
  frames (run [EvPlay; EvTimerFired 0; EvLoadFailed 0; EvPreviousFrame] demo_ready)
  = frames demo_ready.
Proof.
  destruct (loaded_scene_stays demo_ready
              [EvPlay; EvTimerFired 0; EvLoadFailed 0; EvPreviousFrame]) as (_ & H).
  - exists false, demo_loading. vm_compute. reflexivity.
  - reflexivity.
  - by repeat constructor.
  - exact H.
Defined.
